(** * Crane DSL front end ([src/dsl/index.js])

    A shallow embedding of the grammar artifacts ([CraneGrammar],
    [ColdCraneGrammar], [HotCraneGrammar]), of the translation [toGrammar]
    from a parsed DSL document to a grammar with an action table, and of
    the driver [compile] with its location helper [getLoc].

    JavaScript objects that are shared and mutated (grammars, action
    tables, the arrays held by a crane grammar, the crane grammars
    themselves) live in a store and are named by locations.  Exceptions
    are results: a computation returns either a value or the thrown error,
    together with the store as the call left it. *)

From Stdlib Require Import ZArith String Ascii List Lia.
From Stdlib Require Import DecimalString DecimalNat DecimalZ.
From stdpp Require Import gmap strings list fin_maps sorting.

Local Open Scope Z_scope.
Local Open Scope nat_scope.

(** ** Strings and numbers *)

(** [String(n)] for a non-negative integer: the decimal numeral.  It is the
    property key written by [obj[n] = v] and the text of [n] inside a
    template literal. *)
Definition numberToString (n : nat) : string :=
  NilZero.string_of_uint (Nat.to_uint n).

(** [parseInt(s, 10)] on a string of decimal digits; [None] is [NaN]. *)
Definition parseInt (s : string) : option nat :=
  Nat.of_uint <$> NilZero.uint_of_string s.

(** The text of an integer inside a template literal. *)
Definition intToString (z : Z) : string :=
  NilZero.string_of_int (Z.to_int z).

Definition newline : ascii := ascii_of_nat 10.

(** [/\n/.test(code)]. *)
Fixpoint hasNewline (code : string) : bool :=
  match code with
  | EmptyString => false
  | String c rest => if Ascii.eqb c newline then true else hasNewline rest
  end.

(** [parts.join(sep)]. *)
Definition join (sep : string) (parts : list string) : string :=
  String.concat sep parts.

(** ** Errors and results *)

Inductive JsError :=
| Error (message : string)
| TypeError (message : string)
| GrammarConflict (state : nat) (terminal : string).

(** [e.message].  The spec names the grammar conflict error and does not
    give its text. *)
Definition message (e : JsError) : string :=
  match e with
  | Error m => m
  | TypeError m => m
  | GrammarConflict s t =>
      "Grammar conflict in state " +:+ numberToString s +:+ " on " +:+ t
  end.

Inductive Result (A : Type) :=
| Ok (a : A)
| Throw (e : JsError).
Arguments Ok {A} a.
Arguments Throw {A} e.

#[global] Instance Result_ret : MRet Result := λ A a, Ok a.
#[global] Instance Result_bind : MBind Result := λ A B k r,
  match r with
  | Ok a => k a
  | Throw e => Throw e
  end.

(** ** Symbols

    A grammar symbol is a string.  The translation reads symbols out of
    plain objects, so two other values can end up in a right-hand side:
    [undefined] (a field that is not there) and a member inherited from
    [Object.prototype] (every object created by [{}] has it as
    prototype, and the [in] operator and property reads follow the
    prototype chain). *)

Inductive Sym :=
| SymStr (s : string)
| SymUndefined
| SymNative (member : string).

#[global] Instance Sym_eq_dec : EqDecision Sym.
Proof. solve_decision. Defined.

(** The properties of [Object.prototype]. *)
Definition objectPrototypeMembers : list string :=
  [ "constructor"; "__defineGetter__"; "__defineSetter__"; "hasOwnProperty";
    "__lookupGetter__"; "__lookupSetter__"; "isPrototypeOf";
    "propertyIsEnumerable"; "toString"; "valueOf"; "__proto__";
    "toLocaleString" ]%string.

Definition objectPrototype (name : string) : option Sym :=
  if bool_decide (name ∈ objectPrototypeMembers)
  then Some (SymNative name) else None.

(** A value inside a template literal.  The members of [Object.prototype]
    are native functions, [constructor] being [Object], except [__proto__],
    which reads as the prototype object. *)
Definition symToString (v : Sym) : string :=
  match v with
  | SymStr s => s
  | SymUndefined => "undefined"
  | SymNative m =>
      if String.eqb m "__proto__" then "[object Object]"
      else "function "
             +:+ (if String.eqb m "constructor" then "Object" else m)
             +:+ "() { [native code] }"
  end.

(** ** Grammar ([grammar.js], [precedence.js]) *)

Inductive Associativity := LEFT | RIGHT | NONE.

#[global] Instance Associativity_eq_dec : EqDecision Associativity.
Proof. solve_decision. Defined.

(** A level of the precedence specification, [{tokens, type}]. *)
Record PrecedenceLevel := mkLevel {
  tokens : list string;
  associativity : Associativity
}.

(** The [prec] field of a production: absent, [null], or a terminal. *)
Inductive PrecField :=
| PrecUndefined
| PrecNull
| PrecName (terminal : string).

#[global] Instance PrecField_eq_dec : EqDecision PrecField.
Proof. solve_decision. Defined.

(** A production as the grammar receives it: [{type, production, prec}]. *)
Record Production := mkProduction {
  type : string;
  production : list Sym;
  prec : PrecField
}.

(** Modelled from the spec: the class [Grammar] of [grammar.js], which is
    not among the sources.  The spec gives its contract: it is constructed
    from an ordered production list, a root index and a precedence
    specification, and holds them as [productions] (index = production
    id), [root] and [precedence]. *)
Record Grammar := mkGrammar {
  productions : list Production;
  root : nat;
  precedence : list PrecedenceLevel
}.

(** The [meta] argument of [addProduction]; [{}] has no [prec]. *)
Record Meta := mkMeta { meta_prec : PrecField }.
Definition emptyMeta : Meta := mkMeta PrecUndefined.

(** Modelled from the spec: [Grammar.addProduction(lhs, rhs, meta)], which
    "appends a production and returns its id". *)
Definition addProduction (g : Grammar) (lhs : string) (rhs : list Sym)
    (meta : Meta) : Grammar * nat :=
  (mkGrammar (productions g ++ [mkProduction lhs rhs (meta_prec meta)])
             (root g) (precedence g),
   length (productions g)).

(** ** Parsing tables ([generator.js]) *)

Inductive Action :=
| Shift (next : nat)
| Reduce (productionId : nat)
| Accept.

#[global] Instance Action_eq_dec : EqDecision Action.
Proof. solve_decision. Defined.

Record ParsingTable := mkTable {
  actionTable : gmap (nat * string) Action;
  gotoTable : gmap (nat * string) nat
}.

(** Modelled from the spec: the precedence table "assigns every listed
    terminal a numeric level (its list position) and an associativity";
    lookup is "none" for an undeclared terminal. *)
Fixpoint precedenceLookupFrom (level : nat) (spec : list PrecedenceLevel)
    (terminal : string) : option (nat * Associativity) :=
  match spec with
  | [] => None
  | l :: rest =>
      if bool_decide (terminal ∈ tokens l)
      then Some (level, associativity l)
      else precedenceLookupFrom (S level) rest terminal
  end.

Definition precedenceLookup (g : Grammar) (terminal : string)
    : option (nat * Associativity) :=
  precedenceLookupFrom 0 (precedence g) terminal.

(** Modelled from the spec: a symbol is a non-terminal when it "ever
    appears as a left-hand side of a production", a terminal otherwise. *)
Definition isNonTerminal (g : Grammar) (s : string) : bool :=
  existsb (λ p, String.eqb (type p) s) (productions g).

Definition terminalOf (g : Grammar) (v : Sym) : option string :=
  match v with
  | SymStr s => if isNonTerminal g s then None else Some s
  | _ => None
  end.

(** Modelled from the spec: "a production's effective precedence is its
    precedenceOverride if set, else the level of the rightmost terminal
    appearing in its rhs, else no precedence". *)
Definition rightmostTerminal (g : Grammar) (rhs : list Sym) : option string :=
  head (omap (terminalOf g) (rev rhs)).

Definition effectivePrecedence (g : Grammar) (p : Production)
    : option (nat * Associativity) :=
  match prec p with
  | PrecName t => precedenceLookup g t
  | _ => rightmostTerminal g (production p) ≫= precedenceLookup g
  end.

(** Modelled from the spec: the shift/reduce policy.  "Default to shift.
    Override to reduce only if the reducing production has a declared
    effective precedence level strictly higher than the incoming
    terminal's level, or an equal level with LEFT associativity.  An
    equal level with RIGHT associativity keeps the shift.  An equal level
    with NONE associativity is a hard conflict: it must raise a fatal
    grammar error at build time." *)
Inductive Resolution := KeepShift | TakeReduce | HardConflict.

Definition resolveShiftReduce (g : Grammar) (reducing : nat)
    (terminal : string) : Resolution :=
  match productions g !! reducing ≫= effectivePrecedence g,
        precedenceLookup g terminal with
  | Some (pl, _), Some (tl, assoc) =>
      if decide (tl < pl) then TakeReduce
      else if decide (pl < tl) then KeepShift
      else match assoc with
           | LEFT => TakeReduce
           | RIGHT => KeepShift
           | NONE => HardConflict
           end
  | _, _ => KeepShift
  end.

Definition shiftReduce (g : Grammar) (state : nat) (terminal : string)
    (next reducing : nat) : Result Action :=
  match resolveShiftReduce g reducing terminal with
  | KeepShift => Ok (Shift next)
  | TakeReduce => Ok (Reduce reducing)
  | HardConflict => Throw (GrammarConflict state terminal)
  end.

(** Modelled from the spec: merging a further action into a cell of the
    action table.  Reduce/reduce is "resolved by production declaration
    order, the production with the lower id wins".  The spec gives no rule
    for a second shift or for a conflict with [Accept]; the action already
    in the cell is kept there. *)
Definition mergeAction (g : Grammar) (state : nat) (terminal : string)
    (old new : Action) : Result Action :=
  match old, new with
  | Shift n, Reduce p => shiftReduce g state terminal n p
  | Reduce p, Shift n => shiftReduce g state terminal n p
  | Reduce p, Reduce q => Ok (Reduce (p `min` q))
  | _, _ => Ok old
  end.

Definition addAction (g : Grammar) (table : gmap (nat * string) Action)
    (entry : nat * string * Action) : Result (gmap (nat * string) Action) :=
  let '(state, terminal, a) := entry in
  match table !! (state, terminal) with
  | None => Ok (<[(state, terminal) := a]> table)
  | Some old =>
      r ← mergeAction g state terminal old a;
      Ok (<[(state, terminal) := r]> table)
  end.

Fixpoint fillActionTable (g : Grammar) (table : gmap (nat * string) Action)
    (entries : list (nat * string * Action))
    : Result (gmap (nat * string) Action) :=
  match entries with
  | [] => Ok table
  | e :: rest =>
      table' ← addAction g table e;
      fillActionTable g table' rest
  end.

(** Modelled from the spec: what the parser does with a production on
    reduction when the action table has no entry for it: "resolve to first
    symbol's value, or an empty sequence if rhs is empty". *)
Definition defaultResolve {V} (children : list V) : V + list V :=
  match children with
  | v :: _ => inl v
  | [] => inr []
  end.

(** ** The parsed DSL document

    [toGrammar] receives the body of the document: a list of lines, each an
    object with a [type] and an optional [loc].  The fields read from a
    line or from a production element depend on its [type]. *)

Set Warnings "-register-all".

Inductive Element :=
| EString (value : string)
| ECall (name : string) (args : list (list Element))
| EAddress (path : list string)
| EId (name : string)
| EOther.

Inductive PrecedenceKind := KLeft | KRight | KNone.

Inductive Line :=
| LPrecedence (loc : option Z) (kind : PrecedenceKind) (tokens : list string)
| LDefinition (loc : option Z) (name : string) (body : list Line)
| LProduction (loc : option Z) (production : list Element)
    (code : option string) (prec : option string)
| LImport (loc : option Z) (source : string)
| LOther (loc : option Z).

(** [line.loc ? line.loc.start.line : sourceLine]. *)
Definition lineLoc (l : Line) : option Z :=
  match l with
  | LPrecedence loc _ _ | LDefinition loc _ _ | LProduction loc _ _ _
  | LImport loc _ | LOther loc => loc
  end.

(** An entry of [dependencies]: [{line: sourceLine, ...line}]. *)
Record Dependency := mkDependency {
  dep_line : Z;
  dep_source : string
}.

(** A token as [compile] reads it: [{source, range}] next to whatever the
    parser consumes. *)
Record Token := mkToken {
  tok_type : string;
  tok_value : string;
  source : string;
  range : list nat
}.

Section Crane.

(** ** External collaborators

    The libraries the module imports and the parts of the repository it
    is linked with; nothing is assumed about them. *)

(** ESTree nodes, as [acorn] builds them. *)
Variable JsAst : Type.
(** JavaScript functions. *)
Variable JsFunction : Type.
(** [ls.compile(src, {bare: true, header: false})]; [None] when it throws. *)
Variable ls_compile : string → option string.
(** [acorn.parseExpressionAt(src, 0)]; [None] when it throws. *)
Variable acorn_parseExpressionAt : string → option JsAst.
(** The function a function-expression node denotes once
    [escodegen.generate] has printed it and [vm.runInNewContext] has
    evaluated it. *)
Variable evaluate : JsAst → JsFunction.
(** The table builder of [generator.js]: the auxiliary productions it
    appends to the grammar it is given, and the candidate actions and
    goto entries of the LR(1) item sets it computes. *)
Variable builderAugment : Grammar → Grammar.
Variable candidateActions : Grammar → list (nat * string * Action).
Variable gotoEntries : Grammar → gmap (nat * string) nat.
(** The DSL tokenizer of [postprocess.js]. *)
Variable tokenize : string → list Token.
(** The generated DSL parser of [parser.out.js]. *)
Variable ParserState : Type.
Variable Parser_new : string → ParserState.
Variable Parser_push : ParserState → Token → Result ParserState.
Variable Parser_finish : ParserState → Result (list Line).

(** ** Values and the store *)

Inductive JsValue :=
| VUndefined
| VNull
| VBoolean (b : bool)
| VNumber (n : Z)
| VString (s : string)
| VFunction (f : JsFunction)
| VObject.

Definition typeof (v : JsValue) : string :=
  match v with
  | VUndefined => "undefined"
  | VNull | VObject => "object"
  | VBoolean _ => "boolean"
  | VNumber _ => "number"
  | VString _ => "string"
  | VFunction _ => "function"
  end.

Inductive CraneClass := Cold | Hot.

(** The fields of a crane grammar; all of them are references. *)
Record CraneFields := mkCrane {
  grammar : nat;
  actions : nat;
  dependencies : nat;
  sourceLineMappings : nat;
  origin : option nat
}.

Definition setOrigin (c : CraneFields) (o : option nat) : CraneFields :=
  mkCrane (grammar c) (actions c) (dependencies c) (sourceLineMappings c) o.

Definition setSourceLineMappings (c : CraneFields) (l : nat) : CraneFields :=
  mkCrane (grammar c) (actions c) (dependencies c) l (origin c).

Inductive HeapObj :=
| OGrammar (g : Grammar)
| OColdActions (t : gmap nat JsAst)
| OHotActions (t : gmap nat JsValue)
| ODependencies (d : list Dependency)
| OLines (l : list (option Z))
| OCrane (cls : CraneClass) (c : CraneFields).

(** A computation on the store; a thrown error keeps the store. *)
Definition M (A : Type) : Type :=
  gmap nat HeapObj → Result A * gmap nat HeapObj.

#[global] Instance M_ret : MRet M := λ A a σ, (Ok a, σ).
#[global] Instance M_bind : MBind M := λ A B k m σ,
  match m σ with
  | (Ok a, σ') => k a σ'
  | (Throw e, σ') => (Throw e, σ')
  end.

Definition throw {A} (e : JsError) : M A := λ σ, (Throw e, σ).

Definition liftResult {A} (r : Result A) : M A := λ σ, (r, σ).

(** A new object gets a location not in use. *)
Definition alloc (o : HeapObj) : M nat := λ σ,
  let l := fresh (dom σ) in (Ok l, <[l := o]> σ).

Definition write (l : nat) (o : HeapObj) : M unit := λ σ,
  (Ok tt, <[l := o]> σ).

Definition loadGrammar (l : nat) : M Grammar := λ σ,
  match σ !! l with
  | Some (OGrammar g) => (Ok g, σ)
  | _ => (Throw (TypeError "not a grammar"), σ)
  end.

Definition loadColdActions (l : nat) : M (gmap nat JsAst) := λ σ,
  match σ !! l with
  | Some (OColdActions t) => (Ok t, σ)
  | _ => (Throw (TypeError "not a table of action nodes"), σ)
  end.

Definition loadHotActions (l : nat) : M (gmap nat JsValue) := λ σ,
  match σ !! l with
  | Some (OHotActions t) => (Ok t, σ)
  | _ => (Throw (TypeError "not a table of actions"), σ)
  end.

Definition loadLines (l : nat) : M (list (option Z)) := λ σ,
  match σ !! l with
  | Some (OLines a) => (Ok a, σ)
  | _ => (Throw (TypeError "not an array"), σ)
  end.

Definition loadCrane (cls : CraneClass) (l : nat) : M CraneFields := λ σ,
  match σ !! l with
  | Some (OCrane cls' c) =>
      match cls, cls' with
      | Cold, Cold | Hot, Hot => (Ok c, σ)
      | _, _ => (Throw (TypeError "not a method of this class"), σ)
      end
  | _ => (Throw (TypeError "not a crane grammar"), σ)
  end.

Definition loadAnyCrane (l : nat) : M (CraneClass * CraneFields) := λ σ,
  match σ !! l with
  | Some (OCrane cls c) => (Ok (cls, c), σ)
  | _ => (Throw (TypeError "not a crane grammar"), σ)
  end.

(** [array[i] = v]: in range it replaces, out of range it extends the
    array, leaving holes. *)
Definition arraySet {A} (a : list (option A)) (i : nat) (v : A)
    : list (option A) :=
  if decide (i < length a) then <[i := Some v]> a
  else a ++ replicate (i - length a) None ++ [Some v].

(** ** [class CraneGrammar] *)

(** [constructor(grammar, actions, dependencies)]. *)
Definition CraneGrammar_new (cls : CraneClass)
    (grammarRef actionsRef dependenciesRef : nat) : M nat :=
  g ← loadGrammar grammarRef;
  lines ← alloc (OLines (replicate (length (productions g)) (Some (-1)%Z)));
  alloc (OCrane cls
           (mkCrane grammarRef actionsRef dependenciesRef lines None)).

Definition addSourceLineMapping (this production : nat) (line : Z)
    : M unit :=
  '(_, c) ← loadAnyCrane this;
  a ← loadLines (sourceLineMappings c);
  write (sourceLineMappings c) (OLines (arraySet a production line)).

(** Modelled from the spec: [Grammar.clone()], which "returns a deep,
    independent copy": a new grammar object with the same contents. *)
Definition Grammar_clone (l : nat) : M nat :=
  g ← loadGrammar l;
  alloc (OGrammar g).

(** Modelled from the spec: [Grammar.addProduction] on a grammar object. *)
Definition Grammar_addProduction (l : nat) (lhs : string)
    (rhs : list Sym) (meta : Meta) : M nat :=
  g ← loadGrammar l;
  let '(g', id) := addProduction g lhs rhs meta in
  _ ← write l (OGrammar g');
  mret id.

(** Modelled from the spec: the table builder [clr(grammar, debug)] of
    [generator.js].  It augments the grammar object it is given, fills the
    action table from the candidate actions of the item sets, resolving
    conflicts by the policy above, and aborts on a hard conflict. *)
Definition buildTable (g : Grammar) : Result ParsingTable :=
  t ← fillActionTable g ∅ (candidateActions g);
  Ok (mkTable t (gotoEntries g)).

Definition clr (l : nat) (debug : bool) : M ParsingTable :=
  g ← loadGrammar l;
  _ ← write l (OGrammar (builderAugment g));
  liftResult (buildTable (builderAugment g)).

(** [generateParsingTable(debug = false)]. *)
Definition generateParsingTable (this : nat) (debug : bool)
    : M ParsingTable :=
  '(_, c) ← loadAnyCrane this;
  copy ← Grammar_clone (grammar c);
  clr copy debug.

(** ** [class ColdCraneGrammar] *)

Definition ColdCraneGrammar_new
    (grammarRef actionsRef dependenciesRef : nat) : M nat :=
  CraneGrammar_new Cold grammarRef actionsRef dependenciesRef.

(** A property of the object expression built by [getActionAST]:
    [{key: {type: 'Literal', value}, value, computed: true, ...}]. *)
Record Property := mkProperty {
  key : option nat;
  value : JsAst
}.

Definition keyLe {V} (a b : nat * V) : Prop := a.1 ≤ b.1.

#[global] Instance keyLe_dec {V} (a b : nat * V) : Decision (keyLe a b).
Proof. unfold keyLe. apply _. Defined.

(** [for (const key in o) if (o.hasOwnProperty(key))] with [o[key]]: the
    own properties of a table, integer keys in ascending order, each key
    as the string it is. *)
Definition ownEntries {V} (o : gmap nat V) : list (string * V) :=
  (λ kv, (numberToString kv.1, kv.2)) <$> merge_sort keyLe (map_to_list o).

Definition getActionAST (this : nat) : M (list Property) :=
  c ← loadCrane Cold this;
  t ← loadColdActions (actions c);
  mret ((λ kv, mkProperty (parseInt kv.1) kv.2) <$> ownEntries t).

(** The object that the printed object expression evaluates to: the
    properties are defined in order, each under its computed key.  A [NaN]
    key would name the property ["NaN"], which is not a production id. *)
Definition runObjectExpression (props : list Property) : gmap nat JsValue :=
  foldl (λ o p,
           match key p with
           | Some k => <[k := VFunction (evaluate (value p))]> o
           | None => o
           end) ∅ props.

(** ** [class HotCraneGrammar] *)

(** [constructor(grammar, actions, dependencies)]: the inherited
    constructor, then [this.origin = null]. *)
Definition HotCraneGrammar_new (grammarRef actionsRef dependenciesRef : nat)
    : M nat :=
  this ← CraneGrammar_new Hot grammarRef actionsRef dependenciesRef;
  c ← loadCrane Hot this;
  _ ← write this (OCrane Hot (setOrigin c None));
  mret this.

(** [cook()]. *)
Definition cook (this : nat) : M nat :=
  c ← loadCrane Cold this;
  props ← getActionAST this;
  object ← alloc (OHotActions (runObjectExpression props));
  cooked ← HotCraneGrammar_new (grammar c) object (dependencies c);
  h ← loadCrane Hot cooked;
  _ ← write cooked
        (OCrane Hot (setSourceLineMappings h (sourceLineMappings c)));
  h ← loadCrane Hot cooked;
  _ ← write cooked (OCrane Hot (setOrigin h (Some this)));
  mret cooked.

(** [augment(nt, tokens, action = null)]. *)
Definition augment (this : nat) (nt : string) (tokens : list Sym)
    (action : JsValue) : M unit :=
  c ← loadCrane Hot this;
  _ ← (if String.eqb (typeof action) "function" then
         g ← loadGrammar (grammar c);
         t ← loadHotActions (actions c);
         write (actions c)
               (OHotActions (<[length (productions g) := action]> t))
       else mret tt);
  _ ← Grammar_addProduction (grammar c) nt tokens emptyMeta;
  mret tt.

(** Modelled from the spec: the value a reduction by production [id]
    gets from a table of bound actions, [call f children] being the call
    of a bound action. *)
Definition resolveValue {V} (t : gmap nat JsValue)
    (call : JsFunction → list V → V) (id : nat) (children : list V)
    : V + list V :=
  match t !! id with
  | Some (VFunction f) => inl (call f children)
  | _ => defaultResolve children
  end.

(** ** [extractor] and [compileLS] *)

(** An entry of the list that [toGrammar] collects:
    [{type, line, production, code, prec}]. *)
Record Entry := mkEntry {
  entry_type : string;
  entry_line : Z;
  entry_production : list Sym;
  entry_code : option string;
  entry_prec : PrecField
}.

(** The values of the properties of an entry or of a production. *)
Inductive FieldValue :=
| FUndefined
| FNull
| FString (s : string)
| FNumber (n : Z)
| FSymbols (l : list Sym).

(** [extractor(...props)]: [(o) => props.reduce((obj, prop) => (obj[prop] =
    o[prop], obj), {})], on objects as maps from property names to values.
    A property that [o] does not have is read as [undefined]. *)
Definition extractor (props : list string) (o : gmap string FieldValue)
    : gmap string FieldValue :=
  foldl (λ obj prop, <[prop := default FUndefined (o !! prop)]> obj) ∅ props.

Definition precValue (p : PrecField) : FieldValue :=
  match p with
  | PrecUndefined => FUndefined
  | PrecNull => FNull
  | PrecName t => FString t
  end.

(** An entry and a production as the objects they are.  The root entry
    and the entries of [multiple] have no [prec]. *)
Definition entryObject (o : Entry) : gmap string FieldValue :=
  let fields : gmap string FieldValue :=
    {[ "type"%string := FString (entry_type o);
       "line"%string := FNumber (entry_line o);
       "production"%string := FSymbols (entry_production o);
       "code"%string := from_option FString FUndefined (entry_code o) ]} in
  match entry_prec o with
  | PrecUndefined => fields
  | p => <["prec"%string := precValue p]> fields
  end.

Definition productionObject (p : Production) : gmap string FieldValue :=
  {[ "type"%string := FString (type p);
     "production"%string := FSymbols (production p);
     "prec"%string := precValue (prec p) ]}.

(** [extractor('type', 'production', 'prec')] on an entry: the production
    the grammar is given (see [extractor_entry]). *)
Definition toProduction (o : Entry) : Production :=
  mkProduction (entry_type o) (entry_production o) (entry_prec o).

(** The alias list of [compileLS]: for each [[index, name]] of the map,
    pad with [''] up to [index] and store [name] there. *)
Definition setAlias (aliasList : list string) (entry : nat * string)
    : list string :=
  let '(index, name) := entry in
  let padded :=
    aliasList ++ replicate (S index - length aliasList) ""%string in
  <[index := name]> padded.

(** [compileLS(code, aliases = new Map())]. *)
Definition compileLS (code : string) (aliases : list (nat * string))
    : Result JsAst :=
  let aliasList := foldl setAlias [] aliases in
  let params :=
    if decide (0 < length aliasList)
    then "([" +:+ join "," aliasList +:+ "] = $)" else ""%string in
  let src :=
    "return do " +:+ params +:+ " => "
      +:+ (if hasNewline code then String newline "" else ""%string)
      +:+ code in
  match ls_compile src with
  | Some c =>
      match acorn_parseExpressionAt
              ("function ($, $loc, $rule) {" +:+ c +:+ "}") with
      | Some ast => Ok ast
      | None => Throw (Error "Cannot parse!")
      end
  | None => Throw (Error "Cannot parse!")
  end.

(** JavaScript truthiness of a [code] field: a non-empty string. *)
Definition truthy (code : option string) : bool :=
  match code with
  | Some s => negb (String.eqb s "")
  | None => false
  end.

(** ** [toGrammar]: scopes *)

(** The variable table of a scope is an object whose prototype is the
    table of the enclosing scope; the table of the document is [{}].  The
    tables are shared: a nested scope sees what is bound in an enclosing
    scope after the nested table was created.  A table is named by its
    index in [tables]; a reference to a table carries its prototype
    chain, innermost first, which ends at [Object.prototype]. *)
Definition Vars := list nat.

(** [vars[name]] as an optional value; [None] when [name in vars] is
    false. *)
Fixpoint chainLookup (tables : list (gmap string string)) (vars : Vars)
    (name : string) : option Sym :=
  match vars with
  | [] => objectPrototype name
  | t :: proto =>
      match tables !! t ≫= (λ own, own !! name) with
      | Some v => Some (SymStr v)
      | None => chainLookup tables proto name
      end
  end.

(** [name in vars]. *)
Definition hasProperty (tables : list (gmap string string)) (vars : Vars)
    (name : string) : bool :=
  bool_decide (is_Some (chainLookup tables vars name)).

(** [vars[name] = v] with [v] a string: an own property of the innermost
    table.  [__proto__] is the accessor inherited from
    [Object.prototype], whose setter ignores a string. *)
Definition setProperty (tables : list (gmap string string)) (vars : Vars)
    (name v : string) : list (gmap string string) :=
  if String.eqb name "__proto__" then tables
  else match vars with
       | [] => tables
       | t :: _ => alter (λ own, <[name := v]> own) t tables
       end.

(** An entry of the queue [defs]. *)
Record Scope := mkScope {
  scope_body : list Line;
  scope_name : string;
  scope_vars : Vars
}.

(** A production line as kept in [productions]:
    [{line: sourceLine, ...line}]. *)
Record ProductionLine := mkProductionLine {
  p_line : Z;
  p_production : list Element;
  p_code : option string;
  p_prec : option string
}.

(** The variables of [toGrammar] that the loops update. *)
Record State := mkState {
  st_precedence : list PrecedenceLevel;
  st_defs : list Scope;
  st_list : list Entry;
  st_dependencies : list Dependency;
  st_i : nat;
  st_sourceLine : Z;
  st_tables : list (gmap string string)
}.

Definition pushList (st : State) (es : list Entry) : State :=
  mkState (st_precedence st) (st_defs st) (st_list st ++ es)
          (st_dependencies st) (st_i st) (st_sourceLine st) (st_tables st).

(** [precedenceMapper]. *)
Definition precedenceMapper (k : PrecedenceKind) : Associativity :=
  match k with
  | KLeft => LEFT
  | KRight => RIGHT
  | KNone => NONE
  end.

(** [`${name}${name === '' ? '' : '.'}${line.name.name}`]. *)
Definition ntTypeOf (name defName : string) : string :=
  name +:+ (if String.eqb name "" then "" else ".")%string +:+ defName.

(** [rootName || ntType]. *)
Definition rootOr (rootName : option string) (ntType : string) : string :=
  match rootName with
  | Some r => if String.eqb r "" then ntType else r
  | None => ntType
  end.

Definition rootEntry (sourceLine : Z) (rootName : option string)
    (ntType : string) : Entry :=
  mkEntry "$$$" sourceLine [SymStr (rootOr rootName ntType)]
          (Some "$[0]"%string) PrecUndefined.

(** One turn of [for (let line of body)]. *)
Definition bodyLine (rootName : option string) (name : string)
    (vars : Vars) (acc : State * list ProductionLine) (line : Line)
    : Result (State * list ProductionLine) :=
  let '(st0, productions) := acc in
  let sourceLine := default (st_sourceLine st0) (lineLoc line) in
  let st := mkState (st_precedence st0) (st_defs st0) (st_list st0)
              (st_dependencies st0) (st_i st0) sourceLine (st_tables st0) in
  match line with
  | LPrecedence _ kind toks =>
      if decide (0 < String.length name)
      then Throw (Error "Top-level precedence declarations only, please!")
      else
        let level := mkLevel toks (precedenceMapper kind) in
        Ok (mkState (st_precedence st ++ [level]) (st_defs st) (st_list st)
              (st_dependencies st) (st_i st) sourceLine (st_tables st),
            productions)
  | LDefinition _ defName body =>
      let ntType := ntTypeOf name defName in
      let tables1 := setProperty (st_tables st) vars defName ntType in
      let list1 :=
        if decide (length (st_list st) = 0)
        then st_list st ++ [rootEntry sourceLine rootName ntType]
        else st_list st in
      let child := length tables1 in
      Ok (mkState (st_precedence st)
            (st_defs st ++ [mkScope body ntType (child :: vars)])
            list1 (st_dependencies st) (st_i st) sourceLine
            (tables1 ++ [∅]),
          productions)
  | LProduction _ prod code prec =>
      if decide (String.length name = 0)
      then Throw (Error "Top level productions not allowed!")
      else Ok (st, productions ++ [mkProductionLine sourceLine prod code prec])
  | LImport _ src =>
      Ok (mkState (st_precedence st) (st_defs st) (st_list st)
            (st_dependencies st ++ [mkDependency sourceLine src])
            (st_i st) sourceLine (st_tables st),
          productions)
  | LOther _ => Ok (st, productions)
  end.

(** A loop whose body may throw. *)
Fixpoint forOf {A B} (f : A → B → Result A) (a : A) (l : list B)
    : Result A :=
  match l with
  | [] => Ok a
  | b :: rest => a' ← f a b; forOf f a' rest
  end.

(** ** [toGrammar]: productions and macros *)

(** [localCtxt.resolve(name)]: [vars[name]] if [name in vars], else
    [name]; the name is [undefined] when a path is empty. *)
Definition resolveName (tables : list (gmap string string)) (vars : Vars)
    (name : option string) : Sym :=
  match chainLookup tables vars (default "undefined"%string name) with
  | Some v => v
  | None => from_option SymStr SymUndefined name
  end.

(** [localCtxt.resolvePath(path)]. *)
Definition resolvePath (tables : list (gmap string string)) (vars : Vars)
    (path : list string) : Sym :=
  let resolved := resolveName tables vars (head path) in
  match tail path with
  | [] => resolved
  | rest => SymStr (symToString resolved +:+ "." +:+ join "." rest)
  end.

(** [resolve(ctx, e)] of [toGrammar]: the path resolved for an address,
    [e.value] otherwise. *)
Definition resolve (tables : list (gmap string string)) (vars : Vars)
    (e : Element) : Sym :=
  match e with
  | EAddress path => resolvePath tables vars path
  | EString v => SymStr v
  | _ => SymUndefined
  end.

(** [localCtxt.newId()]: [`$__${++i}`]. *)
Definition newId (i : nat) : string := "$__" +:+ numberToString (S i).

(** The built-in macro [multiple([e], [sep] = [null])].  Destructuring
    [undefined] and reading [type] of [undefined] are type errors. *)
Definition multiple (vars : Vars) (args : list (list Element)) (st : State)
    : Result (string * State) :=
  match args with
  | [] => Throw (TypeError "undefined is not iterable")
  | first :: more =>
      let name := newId (st_i st) in
      let st1 := mkState (st_precedence st) (st_defs st) (st_list st)
                   (st_dependencies st) (S (st_i st)) (st_sourceLine st)
                   (st_tables st) in
      match head first with
      | None => Throw (TypeError "Cannot read properties of undefined")
      | Some e =>
          let r := resolve (st_tables st) vars in
          let line := st_sourceLine st in
          let st2 := pushList st1
            [ mkEntry name line [] (Some "[]"%string) PrecUndefined;
              mkEntry name line [r e] (Some "[$[0]]"%string) PrecUndefined ]
          in
          match head more ≫= head with
          | Some sep =>
              Ok (name, pushList st2
                [ mkEntry name line [SymStr name; r sep; r e]
                    (Some "[...$[0], $[2]]"%string) PrecUndefined ])
          | None =>
              Ok (name, pushList st2
                [ mkEntry name line [SymStr name; r e]
                    (Some "[...$[0], $[1]]"%string) PrecUndefined ])
          end
      end
  end.

(** A macro supplied by the caller in [ctxt].  It runs with [localCtxt]
    as [this]: it can resolve names in the scope of the production and
    draw identifiers from the counter [i]; it returns a handle or
    throws.  The list that [toGrammar] collects is not in its reach. *)
Definition UserMacro : Type :=
  (option string → Sym) → list (list Element) → nat → Result (string * nat).

(** [context[e.name.name].apply(localCtxt, e.args)].  [ctxt name] is the
    callable that [context[name]] resolves to apart from the built-in
    [multiple], which an own property of [ctxt] overrides; calling
    [undefined] is a type error. *)
Definition callMacro (ctxt : string → option UserMacro) (vars : Vars)
    (name : string) (args : list (list Element)) (st : State)
    : Result (string * State) :=
  match ctxt name with
  | Some fn =>
      '(handle, i') ← fn (resolveName (st_tables st) vars) args (st_i st);
      Ok (handle,
          mkState (st_precedence st) (st_defs st) (st_list st)
            (st_dependencies st) i' (st_sourceLine st) (st_tables st))
  | None =>
      if String.eqb name "multiple" then multiple vars args st
      else Throw (TypeError "Cannot read properties of undefined")
  end.

Definition notDefined (name : string) : JsError :=
  Error ("Non-terminal " +:+ String (ascii_of_nat 34) name
           +:+ String (ascii_of_nat 34) " not defined").

(** One turn of [for (let e of p.production)]. *)
Definition elementStep (ctxt : string → option UserMacro) (vars : Vars)
    (acc : State * list Sym) (e : Element) : Result (State * list Sym) :=
  let '(st, reformed) := acc in
  match e with
  | EString v => Ok (st, reformed ++ [SymStr v])
  | ECall name args =>
      '(handle, st') ← callMacro ctxt vars name args st;
      if hasProperty (st_tables st') vars handle
      then Throw (Error ("Handle conflict error " +:+ handle))
      else Ok (st', reformed ++ [SymStr handle])
  | EAddress path =>
      let place := default "undefined"%string (head path) in
      match chainLookup (st_tables st) vars place with
      | Some v =>
          let resolved :=
            match tail path with
            | [] => v
            | address => SymStr (symToString v +:+ "." +:+ join "." address)
            end in
          Ok (st, reformed ++ [resolved])
      | None => Throw (notDefined place)
      end
  | EId name =>
      match chainLookup (st_tables st) vars name with
      | Some v => Ok (st, reformed ++ [v])
      | None => Throw (notDefined name)
      end
  | EOther => Ok (st, reformed)
  end.

(** One turn of [productions.forEach]. *)
Definition productionStep (ctxt : string → option UserMacro)
    (name : string) (vars : Vars) (st : State) (p : ProductionLine)
    : Result State :=
  '(st', reformed) ← forOf (elementStep ctxt vars) (st, []) (p_production p);
  Ok (pushList st'
        [ mkEntry name (p_line p) reformed (p_code p)
            (from_option PrecName PrecNull (p_prec p)) ]).

(** One turn of [while (defs.length > 0)]: a scope is taken from the
    queue, its body is read, then its productions are translated.  The
    class [Queue] of [collections.js] is not among the sources; [defs] is a
    list, [enqueue] adds at its end and [dequeue] takes its head. *)
Definition scopeStep (ctxt : string → option UserMacro)
    (rootName : option string) (d : Scope) (st : State) : Result State :=
  '(st', productions) ←
     forOf (bodyLine rootName (scope_name d) (scope_vars d)) (st, [])
           (scope_body d);
  forOf (productionStep ctxt (scope_name d) (scope_vars d)) st' productions.

(** The loop, with a bound on the number of turns; [None] when the
    bound is reached with scopes left in the queue. *)
Fixpoint whileDefs (ctxt : string → option UserMacro)
    (rootName : option string) (turns : nat) (st : State)
    : option (Result State) :=
  match st_defs st with
  | [] => Some (Ok st)
  | d :: rest =>
      match turns with
      | 0 => None
      | S turns' =>
          let st0 := mkState (st_precedence st) rest (st_list st)
                       (st_dependencies st) (st_i st) (st_sourceLine st)
                       (st_tables st) in
          match scopeStep ctxt rootName d st0 with
          | Ok st' => whileDefs ctxt rootName turns' st'
          | Throw e => Some (Throw e)
          end
      end
  end.

(** The number of scopes of a body: the body itself and the bodies of the
    definitions in it, at any depth.  The loop makes one turn for each. *)
Fixpoint scopesOfLine (l : Line) : nat :=
  match l with
  | LDefinition _ _ body => S (list_sum (map scopesOfLine body))
  | _ => 0
  end.

Definition scopesOf (body : list Line) : nat :=
  S (list_sum (map scopesOfLine body)).

(** The state on entry to the loop: [{body: code, name: '', vars: {}}] is
    in the queue, everything else is empty. *)
Definition initialState (code : list Line) : State :=
  mkState [] [mkScope code "" [0]] [] [] 0 0%Z [∅].

(** What the loops of [toGrammar] leave in [list], [precedence] and
    [dependencies]. *)
Definition collect (code : list Line) (rootName : option string)
    (ctxt : string → option UserMacro) : option (Result State) :=
  whileDefs ctxt rootName (scopesOf code) (initialState code).

(** [list.reduce((obj, {code}, i) => ((code ? obj[i] = compileLS(code)
    : null), obj), {})], from index [i] on. *)
Fixpoint compileActions (i : nat) (entries : list Entry)
    (obj : gmap nat JsAst) : Result (gmap nat JsAst) :=
  match entries with
  | [] => Ok obj
  | e :: rest =>
      if truthy (entry_code e) then
        ast ← compileLS (default ""%string (entry_code e)) [];
        compileActions (S i) rest (<[i := ast]> obj)
      else compileActions (S i) rest obj
  end.

(** [list.forEach((p, i) => craneGrammar.addSourceLineMapping(i, p.line))],
    from index [i] on. *)
Fixpoint mapSourceLines (craneGrammar i : nat) (entries : list Entry)
    : M unit :=
  match entries with
  | [] => mret tt
  | p :: rest =>
      _ ← addSourceLineMapping craneGrammar i (entry_line p);
      mapSourceLines craneGrammar (S i) rest
  end.

(** [toGrammar(code, rootName = null, ctxt = {})]. *)
Definition toGrammar (code : list Line) (rootName : option string)
    (ctxt : string → option UserMacro) : M nat :=
  match collect code rootName ctxt with
  | None => throw (Error "unreachable")
  | Some r =>
      st ← liftResult r;
      actionTable ← liftResult (compileActions 0 (st_list st) ∅);
      grammarRef ← alloc (OGrammar (mkGrammar (toProduction <$> st_list st) 0
                                      (st_precedence st)));
      actionsRef ← alloc (OColdActions actionTable);
      dependenciesRef ← alloc (ODependencies (st_dependencies st));
      craneGrammar ← ColdCraneGrammar_new grammarRef actionsRef dependenciesRef;
      _ ← mapSourceLines craneGrammar 0 (st_list st);
      mret craneGrammar
  end.

(** ** [getLoc] and [compile] *)

Record Position := mkPosition {
  line : Z;
  column : Z
}.

(** The object [{start, end}] that [getLoc] returns, [[start, end]] being
    taken from the positions found. *)
Record Loc := mkLoc {
  start : option Position;
  end_ : option Position
}.

(** [line++; column = 0] on a newline, [column++] otherwise. *)
Definition advance (p : Position) (c : ascii) : Position :=
  if Ascii.eqb c newline then mkPosition (line p + 1) 0
  else mkPosition (line p) (column p + 1).

(** The loop [for (const c of source)] of [getLoc], entered with [found]
    positions in [list], at position [pos] and index [i].  Falling off
    the end of the loop returns [undefined]. *)
Fixpoint getLocFrom (src : string) (rng : list nat) (found : list Position)
    (pos : Position) (i : nat) : option Loc :=
  match src with
  | EmptyString => None
  | String c rest =>
      if bool_decide (rng !! length found = Some i) then
        let found' := found ++ [pos] in
        if bool_decide (length found' = length rng)
        then Some (mkLoc (found' !! 0) (found' !! 1))
        else getLocFrom rest rng found' (advance pos c) (S i)
      else getLocFrom rest rng found (advance pos c) (S i)
  end.

(** [getLoc({source, range})]. *)
Definition getLoc (token : Token) : option Loc :=
  getLocFrom (source token) (range token) [] (mkPosition 1 0) 0.

(** The handler of [compile]:
    [const {line, column} = getLoc(token).start;
     throw new Error(`${e.message} @${line}:${column}`)]. *)
Definition rethrow (e : JsError) (token : Token) : JsError :=
  match getLoc token with
  | None =>
      TypeError "Cannot read properties of undefined (reading 'start')"
  | Some loc =>
      match start loc with
      | None => TypeError "Cannot destructure 'getLoc(...).start'"
      | Some p =>
          Error (message e +:+ " @" +:+ intToString (line p) +:+ ":"
                   +:+ intToString (column p))
      end
  end.

(** [for (let token of tokens) try { parsing.push(token) } catch ...]. *)
Fixpoint pushAll (parsing : ParserState) (toks : list Token)
    : Result ParserState :=
  match toks with
  | [] => Ok parsing
  | token :: rest =>
      match Parser_push parsing token with
      | Ok parsing' => pushAll parsing' rest
      | Throw e => Throw (rethrow e token)
      end
  end.

(** [compile(string, name, additional = {})].  The macros of the context
    built from [additional] are what [toGrammar] is given. *)
Definition compile (str : string) (name : option string)
    (additional : string → option UserMacro) : M nat :=
  parsing ← liftResult
    (pushAll (Parser_new str) (tokenize (str +:+ String newline "")));
  body ← liftResult (Parser_finish parsing);
  toGrammar body name additional.

(** The position of offset [k] of a source as the DSL counts it: line 1,
    column 0 at the start, the line advanced and the column reset at each
    newline before the offset. *)
Definition positionOf (src : string) (k : nat) : Position :=
  foldl advance (mkPosition 1 0) (take k (list_ascii_of_string src)).

(** The grammar, the table of action nodes and the table of bound actions
    that a crane grammar holds in a store. *)
Definition grammarOf (σ : gmap nat HeapObj) (this : nat) : option Grammar :=
  match σ !! this with
  | Some (OCrane _ c) =>
      match σ !! grammar c with
      | Some (OGrammar g) => Some g
      | _ => None
      end
  | _ => None
  end.

Definition coldActionsOf (σ : gmap nat HeapObj) (this : nat)
    : option (gmap nat JsAst) :=
  match σ !! this with
  | Some (OCrane Cold c) =>
      match σ !! actions c with
      | Some (OColdActions t) => Some t
      | _ => None
      end
  | _ => None
  end.

Definition hotActionsOf (σ : gmap nat HeapObj) (this : nat)
    : option (gmap nat JsValue) :=
  match σ !! this with
  | Some (OCrane Hot c) =>
      match σ !! actions c with
      | Some (OHotActions t) => Some t
      | _ => None
      end
  | _ => None
  end.

(** ** [expand] and [compileOr] *)

(** An element of a production as [expand] reads it: an object whose [type]
    is ['OrExpression'], with the list of its alternatives, or any other
    object. *)
Inductive Item :=
| OrExpression (alternatives : list Item)
| Plain (type : string).

(** One turn of [for (let e of prod)] in [expand]: an or-expression makes,
    for each alternative in turn, a copy of every list so far with the
    alternative at its end; any other element is pushed onto every list. *)
Definition expandStep (prods : list (list Item)) (e : Item)
    : list (list Item) :=
  match e with
  | OrExpression alternatives =>
      alternatives ≫= (λ exp, (λ prod, prod ++ [exp]) <$> prods)
  | _ => (λ p, p ++ [e]) <$> prods
  end.

(** [prods] at the end of the loop, entered with [[[]]]. *)
Definition expansions (prod : list Item) : list (list Item) :=
  foldl expandStep [[]] prod.

(** The objects [expand] returns: [{type, production, code}]. *)
Record Expanded := mkExpanded {
  ex_type : option Item;
  ex_production : option Item;
  ex_code : option string
}.

(** [expand(prod, code)]: [prods.map(([type, production]) => ({type,
    production, code}))]; the pattern takes the first two elements of each
    list, [undefined] where the list is shorter. *)
Definition expand (prod : list Item) (code : option string) : list Expanded :=
  (λ p, mkExpanded (p !! 0) (p !! 1) code) <$> expansions prod.

(** [localCtxt.compileOr(el)]: the [list] of the node [{type: 'or', list}]
    it returns, [el.list.map] reading the value of each string and throwing
    at the first element of another type. *)
Fixpoint compileOr (els : list Element) : Result (list string) :=
  match els with
  | [] => Ok []
  | EString v :: rest => vs ← compileOr rest; Ok (v :: vs)
  | _ :: _ => Throw (Error "An OR list may only contain terminal types!")
  end.

(** ** What the properties speak of *)

(** Every key of an action table is the id of a production. *)
Definition keysWithin {V} (g : Grammar) (t : gmap nat V) : Prop :=
  ∀ id, is_Some (t !! id) → id < length (productions g).

(** Lines are counted from 1, columns from 0. *)
Definition validPosition (p : Position) : Prop :=
  (1 ≤ line p)%Z ∧ (0 ≤ column p)%Z.

(** Translating productions only appends to [list] and draws identifiers:
    the queue, the precedence, the dependencies and the variable tables
    stay as they are. *)
Definition grows (st st' : State) : Prop :=
  st_precedence st' = st_precedence st
  ∧ st_defs st' = st_defs st
  ∧ st_list st `prefix_of` st_list st'
  ∧ st_dependencies st' = st_dependencies st
  ∧ st_sourceLine st' = st_sourceLine st
  ∧ st_tables st' = st_tables st.

(** What a body declares: its precedence levels, the scopes of its
    definitions (name and body), and the name of its first definition. *)
Definition levelOfLine (l : Line) : option PrecedenceLevel :=
  match l with
  | LPrecedence _ kind toks => Some (mkLevel toks (precedenceMapper kind))
  | _ => None
  end.

Definition declaredLevels (body : list Line) : list PrecedenceLevel :=
  omap levelOfLine body.

Definition childOfLine (name : string) (l : Line)
    : option (string * list Line) :=
  match l with
  | LDefinition _ d b => Some (ntTypeOf name d, b)
  | _ => None
  end.

Definition childScopes (name : string) (body : list Line)
    : list (string * list Line) :=
  omap (childOfLine name) body.

Definition definedName (l : Line) : option string :=
  match l with
  | LDefinition _ d _ => Some d
  | _ => None
  end.

Definition firstDefinition (body : list Line) : option string :=
  head (omap definedName body).

Definition scopeKey (s : Scope) : string * list Line :=
  (scope_name s, scope_body s).

(** The scopes still to be read: those in the queue and those nested in
    them. *)
Definition pendingKeys (ks : list (string * list Line)) : nat :=
  list_sum ((λ k, scopesOf k.2) <$> ks).

Definition pending (defs : list Scope) : nat :=
  pendingKeys (scopeKey <$> defs).

(** The source line mappings once every entry of the list has been
    mapped. *)
Fixpoint mappedLines (i : nat) (entries : list Entry) (a : list (option Z))
    : list (option Z) :=
  match entries with
  | [] => a
  | p :: rest => mappedLines (S i) rest (arraySet a i (entry_line p))
  end.

(** A precedence declaration in a scope that has a name: in the body of a
    named scope, or of a scope nested in the given one. *)
Inductive PrecedenceInScope : string → list Line → Prop :=
| precedence_here (name : string) (body : list Line) (loc : option Z)
    (kind : PrecedenceKind) (toks : list string) :
    name ≠ ""%string →
    LPrecedence loc kind toks ∈ body →
    PrecedenceInScope name body
| precedence_below (name : string) (body : list Line) (loc : option Z)
    (d : string) (b : list Line) :
    LDefinition loc d b ∈ body →
    PrecedenceInScope (ntTypeOf name d) b →
    PrecedenceInScope name body.

Definition named (k : string * list Line) : Prop := k.1 ≠ ""%string.

(** An element picked for a position of a production: one of the
    alternatives of an or-expression, or the element itself. *)
Definition picks (e x : Item) : Prop :=
  match e with
  | OrExpression alternatives => x ∈ alternatives
  | _ => x = e
  end.

(** The number of ways to pick an element for a position. *)
Definition alternativesOf (e : Item) : nat :=
  match e with
  | OrExpression alternatives => length alternatives
  | _ => 1
  end.

Definition isOrExpression (e : Item) : bool :=
  match e with
  | OrExpression _ => true
  | _ => false
  end.

(** The import lines of a body with the source line each is given: the line
    of its own [loc], or that of the nearest line before it that has one,
    [sourceLine] when there is none. *)
Fixpoint importsFrom (sourceLine : Z) (body : list Line) : list Dependency :=
  match body with
  | [] => []
  | l :: rest =>
      let here := default sourceLine (lineLoc l) in
      match l with
      | LImport _ src => mkDependency here src :: importsFrom here rest
      | _ => importsFrom here rest
      end
  end.


(** The error of a production line in the body of the document. *)
Definition topLevelProduction : JsError :=
  Error "Top level productions not allowed!".

(** ** Sample inputs *)

(** The arithmetic grammar of the README, cut down: two precedence
    declarations and two non-terminals. *)
Definition sampleDocument : list Line :=
  [ LPrecedence (Some 1%Z) KLeft ["+"; "-"]%string;
    LPrecedence (Some 2%Z) KNone ["unary"]%string;
    LDefinition (Some 4%Z) "expression"
      [ LProduction (Some 5%Z) [EString "number"]
          (Some "parseFloat $[0]"%string) None;
        LProduction (Some 6%Z)
          [EAddress ["expression"%string]; EString "+";
           EAddress ["expression"%string]]
          (Some "$[0] + $[2]"%string) None;
        LProduction (Some 7%Z) [EString "-"; EAddress ["expression"%string]]
          (Some "-$[1]"%string) (Some "unary"%string) ];
    LDefinition (Some 9%Z) "root"
      [ LProduction (Some 10%Z) [EAddress ["expression"%string]] None None ] ].

(** A precedence declaration inside the scope of a non-terminal. *)
Definition nestedPrecedence : list Line :=
  [ LDefinition None "a"
      [ LPrecedence None KLeft ["+"%string];
        LProduction None [EString "x"] None None ] ].

(** A production that refers to a name no scope binds and that
    [Object.prototype] has, and one that refers to a name nothing has. *)
Definition refersToConstructor : list Line :=
  [ LDefinition None "a"
      [ LProduction None [EId "constructor"; EAddress ["toString"%string]]
          None None ] ].

Definition refersToUnbound : list Line :=
  [ LDefinition None "a" [ LProduction None [EId "b"] None None ] ].

(** Nested scopes: [x], [y] and [b] are defined in the scope of [a], [y]
    and [b] after [x]; [b] and [c] are defined in the document, after
    [a]. *)
Definition scopedDocument : list Line :=
  [ LDefinition None "a"
      [ LDefinition None "x"
          [ LProduction None
              [EId "x"; EId "y"; EId "b"; EId "c";
               EAddress ["c"; "k"]%string]
              None None ];
        LDefinition None "y" [];
        LDefinition None "b" [] ];
    LDefinition None "b" [];
    LDefinition None "c" [] ].

Definition noMacros : string → option UserMacro := λ _, None.

(** A document without definitions: two imports, the second without a
    location of its own, and a precedence declaration between them. *)
Definition importingDocument : list Line :=
  [ LImport (Some 1%Z) "./lexer";
    LPrecedence None KLeft ["+"%string];
    LImport None "./util" ].

Definition sampleGrammar : Grammar :=
  mkGrammar
    [ mkProduction "$$$" [SymStr "e"] PrecUndefined;
      mkProduction "e" [SymStr "number"] PrecNull ]
    0 [].

(** A store with one crane grammar of class [cls], at location 4. *)
Definition sampleStore (cls : CraneClass) (table : HeapObj)
    : gmap nat HeapObj :=
  {[ 0 := OGrammar sampleGrammar;
     1 := table;
     2 := ODependencies [];
     3 := OLines [Some 0%Z; Some 1%Z];
     4 := OCrane cls (mkCrane 0 1 2 3 None) ]}.

(** A grammar with a comparison operator declared non-associative, and the
    candidate actions of the state reached after [e < e]: on [<] the
    automaton can shift, or reduce by production 1. *)
Definition comparisonGrammar : Grammar :=
  mkGrammar
    [ mkProduction "$$$" [SymStr "e"] PrecUndefined;
      mkProduction "e" [SymStr "e"; SymStr "<"; SymStr "e"] PrecNull;
      mkProduction "e" [SymStr "n"] PrecNull ]
    0 [mkLevel ["<"%string] NONE].

Definition comparisonCandidates : list (nat * string * Action) :=
  [ (5, "<"%string, Shift 3); (5, "<"%string, Reduce 1) ].

Definition comparisonStore : gmap nat HeapObj :=
  {[ 0 := OGrammar comparisonGrammar;
     1 := OHotActions ∅;
     2 := ODependencies [];
     3 := OLines [];
     4 := OCrane Hot (mkCrane 0 1 2 3 None) ]}.

(** Two lines of source, and tokens of it: one inside the source, and the
    newline that ends it, whose end offset is the length of the source. *)
Definition sampleSource : string :=
  "a" +:+ String newline ("bc" +:+ String newline "").

Definition innerToken : Token := mkToken "id" "bc" sampleSource [2; 4].

Definition lastToken : Token :=
  mkToken "newline" "" sampleSource [4; 5].

(** * Properties *)

(** ** Numbers as property keys *)

Lemma to_uint_not_Nil (n : nat) : Nat.to_uint n ≠ Decimal.Nil.
Proof.
  intros H. pose proof (Unsigned.of_to n) as E. rewrite H in E.
  destruct n; [|discriminate E]. discriminate H.
Qed.

Lemma parseInt_numberToString (n : nat) : parseInt (numberToString n) = Some n.
Proof.
  unfold parseInt, numberToString.
  rewrite NilZero.usu by apply to_uint_not_Nil.
  simpl. by rewrite Unsigned.of_to.
Qed.

Lemma numberToString_inj (n m : nat) :
  numberToString n = numberToString m → n = m.
Proof.
  intros H. apply (f_equal parseInt) in H.
  rewrite !parseInt_numberToString in H. congruence.
Qed.

(** ** The store *)

Lemma fresh_unused (σ : gmap nat HeapObj) : σ !! fresh (dom σ) = None.
Proof. apply not_elem_of_dom, is_fresh. Qed.

Lemma alloc_extends (σ : gmap nat HeapObj) (o : HeapObj) :
  σ ⊆ <[fresh (dom σ) := o]> σ.
Proof. apply insert_subseteq, fresh_unused. Qed.

Ltac run :=
  repeat (unfold mbind, mret, M_bind, M_ret, Result_bind, Result_ret,
            liftResult, throw, alloc, write, loadGrammar, loadColdActions,
            loadHotActions, loadLines, loadCrane, loadAnyCrane; simpl).

(** ** [generateParsingTable] builds on a clone *)

(** The builder changes the grammar object it is given. *)
Lemma clr_augments_its_argument (σ : gmap nat HeapObj) (l : nat)
    (debug : bool) (g : Grammar) :
  σ !! l = Some (OGrammar g) →
  (clr l debug σ).2 !! l = Some (OGrammar (builderAugment g)).
Proof.
  intros Hl. unfold clr. run. rewrite Hl. simpl. apply lookup_insert_eq.
Qed.

Lemma generateParsingTable_run (σ : gmap nat HeapObj) (this : nat)
    (debug : bool) cls c g :
  σ !! this = Some (OCrane cls c) →
  σ !! grammar c = Some (OGrammar g) →
  generateParsingTable this debug σ
  = (buildTable (builderAugment g),
     <[fresh (dom σ) := OGrammar (builderAugment g)]> σ).
Proof.
  intros Hthis Hg. unfold generateParsingTable, Grammar_clone, clr. run.
  rewrite Hthis. simpl. rewrite Hg. simpl.
  rewrite lookup_insert_eq. simpl. by rewrite insert_insert_eq.
Qed.

Lemma generateParsingTable_extends (σ : gmap nat HeapObj) (this : nat)
    (debug : bool) :
  σ ⊆ (generateParsingTable this debug σ).2.
Proof.
  destruct (σ !! this) as [[| | | | |cls c]|] eqn:Hthis;
    try (unfold generateParsingTable; run; rewrite Hthis; done).
  destruct (σ !! grammar c) as [[g| | | | |]|] eqn:Hg;
    try (unfold generateParsingTable, Grammar_clone; run;
         rewrite Hthis; simpl; rewrite Hg; done).
  rewrite (generateParsingTable_run _ _ _ _ _ _ Hthis Hg). simpl.
  apply alloc_extends.
Qed.

(** C3.  [generateParsingTable] leaves the grammar of the crane grammar as it
    was: whatever the store, every object in it is the same after the call
    (also when the builder throws), and on a crane grammar the builder has
    worked on a new grammar object, the clone, which is the only object the
    call has added; the production list, the root and the precedence the
    caller holds are those from before the call. *)
Theorem generateParsingTable_keeps_grammar (σ : gmap nat HeapObj)
    (this : nat) (debug : bool) (g : Grammar) :
  grammarOf σ this = Some g →
  let σ' := (generateParsingTable this debug σ).2 in
  σ ⊆ σ'
  ∧ grammarOf σ' this = Some g
  ∧ ∃ copy, σ !! copy = None
      ∧ σ' = <[copy := OGrammar (builderAugment g)]> σ
      ∧ (generateParsingTable this debug σ).1 = buildTable (builderAugment g).
Proof.
  intros Hg σ'. split; [apply generateParsingTable_extends|].
  unfold grammarOf in Hg.
  destruct (σ !! this) as [[| | | | |cls c]|] eqn:Hthis; try done.
  destruct (σ !! grammar c) as [[g0| | | | |]|] eqn:Hgr; try done.
  injection Hg as ->.
  pose proof (generateParsingTable_run σ this debug cls c g Hthis Hgr) as Hrun.
  assert (Hsub : σ ⊆ σ') by apply generateParsingTable_extends.
  split.
  - unfold grammarOf.
    rewrite (lookup_weaken _ _ _ _ Hthis Hsub).
    by rewrite (lookup_weaken _ _ _ _ Hgr Hsub).
  - exists (fresh (dom σ)). subst σ'. rewrite Hrun. simpl.
    split; [apply fresh_unused|done].
Qed.

(** ** [augment] *)

Lemma typeof_function (v : JsValue) :
  String.eqb (typeof v) "function" = true ↔ ∃ f, v = VFunction f.
Proof.
  destruct v; simpl; split; try discriminate; try (intros [? ?]; discriminate);
    eauto.
Qed.

Lemma augment_run (σ : gmap nat HeapObj) (this : nat) c g t nt toks action :
  σ !! this = Some (OCrane Hot c) →
  σ !! grammar c = Some (OGrammar g) →
  σ !! actions c = Some (OHotActions t) →
  augment this nt toks action σ
  = (Ok tt,
     <[grammar c := OGrammar (addProduction g nt toks emptyMeta).1]>
       (if String.eqb (typeof action) "function"
        then <[actions c := OHotActions (<[length (productions g) := action]> t)]> σ
        else σ)).
Proof.
  intros Hthis Hg Ht.
  assert (Hne : actions c ≠ grammar c) by (intros E; rewrite E in Ht; congruence).
  unfold augment, Grammar_addProduction. run. rewrite Hthis. simpl.
  destruct (String.eqb (typeof action) "function"); run.
  - rewrite Hg. simpl. rewrite Ht. simpl.
    rewrite lookup_insert_ne by done. by rewrite Hg.
  - by rewrite Hg.
Qed.

(** C1.  On a hot crane grammar with productions [productions g] and bound
    actions [t], [augment(nt, tokens, action)] returns with one production
    appended to the grammar, whose id is the number of productions before
    the call.  A function-valued action is stored in the table under that
    id.  Any other action leaves the table as it was: no entry is added, and
    when the table had none under that id the production resolves by
    default, to the value of its first symbol or to an empty sequence. *)
Theorem augment_appends_and_binds (σ : gmap nat HeapObj) (this : nat)
    (g : Grammar) (t : gmap nat JsValue) (nt : string) (toks : list Sym)
    (action : JsValue) :
  grammarOf σ this = Some g →
  hotActionsOf σ this = Some t →
  let id := length (productions g) in
  ∃ σ' g' t',
    augment this nt toks action σ = (Ok tt, σ')
    ∧ grammarOf σ' this = Some g'
    ∧ hotActionsOf σ' this = Some t'
    ∧ productions g' = productions g ++ [mkProduction nt toks PrecUndefined]
    ∧ productions g' !! id = Some (mkProduction nt toks PrecUndefined)
    ∧ root g' = root g ∧ precedence g' = precedence g
    ∧ match action with
      | VFunction f => t' = <[id := VFunction f]> t ∧ t' !! id = Some action
      | _ =>
          t' = t
          ∧ (t !! id = None →
             ∀ V (call : JsFunction → list V → V) (children : list V),
               resolveValue t' call id children = defaultResolve children)
      end.
Proof.
  intros Hg Ht id. unfold grammarOf in Hg. unfold hotActionsOf in Ht.
  destruct (σ !! this) as [[| | | | |[] c]|] eqn:Hthis; try done.
  destruct (σ !! grammar c) as [[g0| | | | |]|] eqn:Hgr; try done.
  destruct (σ !! actions c) as [[|  |t0| | |]|] eqn:Hac; try done.
  injection Hg as ->. injection Ht as ->.
  assert (Hne : actions c ≠ grammar c) by (intros E; rewrite E in Hac; congruence).
  assert (Hn1 : grammar c ≠ this) by (intros E; rewrite E in Hgr; congruence).
  assert (Hn2 : actions c ≠ this) by (intros E; rewrite E in Hac; congruence).
  pose proof (augment_run σ this c g t nt toks action Hthis Hgr Hac) as Hrun.
  eexists _, (addProduction g nt toks emptyMeta).1,
    (if String.eqb (typeof action) "function"
     then <[id := action]> t else t).
  split; [exact Hrun|].
  split.
  { unfold grammarOf. rewrite lookup_insert_ne by done.
    destruct (String.eqb (typeof action) "function").
    - rewrite lookup_insert_ne by done. rewrite Hthis.
      by rewrite lookup_insert_eq.
    - rewrite Hthis. by rewrite lookup_insert_eq. }
  split.
  { unfold hotActionsOf. rewrite lookup_insert_ne by done.
    destruct (String.eqb (typeof action) "function").
    - rewrite lookup_insert_ne by done. rewrite Hthis.
      rewrite lookup_insert_ne by done. by rewrite lookup_insert_eq.
    - rewrite Hthis. rewrite lookup_insert_ne by done. by rewrite Hac. }
  split; [done|].
  split.
  { simpl. rewrite lookup_app_r by done. by rewrite Nat.sub_diag. }
  split; [done|]. split; [done|].
  destruct action; simpl; try (split; [done|]);
    try (intros Hnone V call children; unfold resolveValue; by rewrite Hnone).
  apply lookup_insert_eq.
Qed.

(** ** The shift/reduce policy of the table builder *)

Lemma fillActionTable_app (g : Grammar) (t : gmap (nat * string) Action)
    (l1 l2 : list (nat * string * Action)) :
  fillActionTable g t (l1 ++ l2)
  = (t' ← fillActionTable g t l1; fillActionTable g t' l2).
Proof.
  revert t. induction l1 as [|e l1 IH]; intros t; simpl; [done|].
  unfold mbind, Result_bind.
  destruct (addAction g t e) as [t'|err]; [apply IH|done].
Qed.

Lemma resolveShiftReduce_equal_level (g : Grammar) (p : nat) (prod : Production)
    (terminal : string) (lvl : nat) (a b : Associativity) :
  productions g !! p = Some prod →
  effectivePrecedence g prod = Some (lvl, a) →
  precedenceLookup g terminal = Some (lvl, b) →
  resolveShiftReduce g p terminal
  = match b with
    | LEFT => TakeReduce
    | RIGHT => KeepShift
    | NONE => HardConflict
    end.
Proof.
  intros Hp He Ht. unfold resolveShiftReduce. rewrite Hp. simpl.
  rewrite He, Ht.
  destruct (decide (lvl < lvl)); [lia|done].
Qed.

Lemma mergeAction_hard_conflict (g : Grammar) (state : nat) (terminal : string)
    (old new : Action) (next p : nat) :
  (old = Shift next ∧ new = Reduce p) ∨ (old = Reduce p ∧ new = Shift next) →
  resolveShiftReduce g p terminal = HardConflict →
  mergeAction g state terminal old new = Throw (GrammarConflict state terminal).
Proof.
  intros [[-> ->]|[-> ->]] H; simpl; unfold shiftReduce; by rewrite H.
Qed.

(** C6.  When the builder, filling the action table of the augmented
    grammar, meets a shift and a reduce for one cell, and the effective
    precedence level of the reducing production equals the level of the
    incoming terminal, a level declared with NONE associativity, then
    [generateParsingTable] throws the grammar conflict error of that cell:
    the call yields no parsing table. *)
Theorem none_associativity_conflict_is_fatal (σ : gmap nat HeapObj)
    (this : nat) (debug : bool) (g : Grammar)
    (before after : list (nat * string * Action))
    (table : gmap (nat * string) Action)
    (state : nat) (terminal : string) (old new : Action) (next p : nat)
    (prod : Production) (lvl : nat) (a : Associativity) :
  grammarOf σ this = Some g →
  let g' := builderAugment g in
  candidateActions g' = before ++ (state, terminal, new) :: after →
  fillActionTable g' ∅ before = Ok table →
  table !! (state, terminal) = Some old →
  (old = Shift next ∧ new = Reduce p) ∨ (old = Reduce p ∧ new = Shift next) →
  productions g' !! p = Some prod →
  effectivePrecedence g' prod = Some (lvl, a) →
  precedenceLookup g' terminal = Some (lvl, NONE) →
  (generateParsingTable this debug σ).1 = Throw (GrammarConflict state terminal)
  ∧ ∀ tbl, (generateParsingTable this debug σ).1 ≠ Ok tbl.
Proof.
  intros Hg g' Hcand Hfill Hcell Hsr Hp He Ht.
  assert (Hres : (generateParsingTable this debug σ).1
                 = Throw (GrammarConflict state terminal)).
  { unfold grammarOf in Hg.
    destruct (σ !! this) as [[| | | | |cls c]|] eqn:Hthis; try done.
    destruct (σ !! grammar c) as [[g0| | | | |]|] eqn:Hgr; try done.
    injection Hg as ->.
    rewrite (generateParsingTable_run σ this debug cls c g Hthis Hgr). simpl.
    unfold buildTable. fold g'. rewrite Hcand, fillActionTable_app, Hfill.
    simpl. unfold addAction. unfold mbind, Result_bind. rewrite Hcell.
    rewrite (mergeAction_hard_conflict g' state terminal old new next p Hsr);
      [done|].
    by rewrite (resolveShiftReduce_equal_level g' p prod terminal lvl a NONE). }
  split; [done|]. intros tbl. rewrite Hres. discriminate.
Qed.

(** ** [cook] *)

Lemma foldl_pointwise {A B} (f h : A → B → A) (a : A) (l : list B) :
  (∀ x y, f x y = h x y) → foldl f a l = foldl h a l.
Proof.
  intros E. revert a. induction l as [|b l IH]; intros a; simpl; [done|].
  by rewrite E, IH.
Qed.

Lemma foldl_insert_lookup {V W} (F : V → W) (l : list (nat * V))
    (acc : gmap nat W) (k : nat) :
  NoDup l.*1 →
  foldl (λ o kv, <[kv.1 := F kv.2]> o) acc l !! k
  = match (list_to_map l : gmap nat V) !! k with
    | Some v => Some (F v)
    | None => acc !! k
    end.
Proof.
  revert acc. induction l as [|[k0 v0] l IH]; intros acc Hnd; simpl.
  - simpl. by rewrite lookup_empty.
  - apply NoDup_cons in Hnd as [Hk0 Hnd]. rewrite IH by done.
    destruct (decide (k = k0)) as [->|Hne].
    + rewrite lookup_insert_eq.
      rewrite (not_elem_of_list_to_map_1 _ _ Hk0).
      by rewrite lookup_insert_eq.
    + rewrite !lookup_insert_ne by done. done.
Qed.

Lemma runObjectExpression_ownEntries (t : gmap nat JsAst) :
  runObjectExpression
    ((λ kv, mkProperty (parseInt kv.1) kv.2) <$> ownEntries t)
  = (λ a, VFunction (evaluate a)) <$> t.
Proof.
  unfold runObjectExpression, ownEntries.
  rewrite <- list_fmap_compose. rewrite foldl_fmap. simpl.
  set (sorted := merge_sort keyLe (map_to_list t)).
  assert (Hperm : sorted ≡ₚ map_to_list t) by apply merge_sort_Permutation.
  assert (Hnd : NoDup sorted.*1).
  { rewrite Hperm. apply NoDup_fst_map_to_list. }
  apply map_eq. intros k.
  rewrite (foldl_pointwise _
             (λ o kv, <[kv.1 := VFunction (evaluate kv.2)]> o)).
  2: { intros o [k0 v0]. simpl. by rewrite parseInt_numberToString. }
  rewrite (foldl_insert_lookup (λ a, VFunction (evaluate a))) by done.
  rewrite lookup_fmap.
  assert (Hmap : (list_to_map sorted : gmap nat JsAst) = t).
  { rewrite (list_to_map_proper sorted (map_to_list t)); [|done|done].
    apply list_to_map_to_list. }
  rewrite Hmap. rewrite lookup_empty. by destruct (t !! k).
Qed.

Lemma cook_run (σ : gmap nat HeapObj) (this : nat) c g t :
  σ !! this = Some (OCrane Cold c) →
  σ !! grammar c = Some (OGrammar g) →
  σ !! actions c = Some (OColdActions t) →
  let object := fresh (dom σ) in
  let σ1 := <[object := OHotActions ((λ a, VFunction (evaluate a)) <$> t)]> σ in
  let lines := fresh (dom σ1) in
  let σ2 :=
    <[lines := OLines (replicate (length (productions g)) (Some (-1)%Z))]> σ1 in
  let cooked := fresh (dom σ2) in
  cook this σ
  = (Ok cooked,
     <[cooked := OCrane Hot (mkCrane (grammar c) object (dependencies c)
                               (sourceLineMappings c) (Some this))]> σ2).
Proof.
  intros Hthis Hg Ht object σ1 lines σ2 cooked.
  assert (Hg1 : σ1 !! grammar c = Some (OGrammar g)).
  { unfold σ1. rewrite lookup_insert_ne; [done|].
    intros E. pose proof (fresh_unused σ) as F. fold object in F.
    rewrite E in F. congruence. }
  unfold cook, getActionAST, HotCraneGrammar_new, CraneGrammar_new. run.
  repeat (rewrite Hthis; simpl). rewrite Ht. simpl.
  rewrite runObjectExpression_ownEntries. fold object. fold σ1.
  rewrite Hg1. simpl. fold lines. fold σ2. fold cooked.
  rewrite lookup_insert_eq. simpl.
  rewrite insert_insert_eq, lookup_insert_eq. simpl.
  rewrite insert_insert_eq, lookup_insert_eq. simpl.
  by rewrite insert_insert_eq.
Qed.

(** C7.  On a cold crane grammar, [cook()] returns a new hot crane grammar
    and changes nothing that was in the store: the cold grammar and every
    object it refers to are as before.  The hot grammar refers to the same
    grammar object and the same dependencies as the cold one, takes its
    [sourceLineMappings] from it, has it as [origin], and holds a new action
    table that has, under each production id of the cold table and under no
    other, the function its action node evaluates to. *)
Theorem cook_is_side_effect_free (σ : gmap nat HeapObj) (this : nat)
    (c : CraneFields) (g : Grammar) (t : gmap nat JsAst) :
  σ !! this = Some (OCrane Cold c) →
  σ !! grammar c = Some (OGrammar g) →
  σ !! actions c = Some (OColdActions t) →
  ∃ cooked object σ' t',
    cook this σ = (Ok cooked, σ')
    ∧ σ ⊆ σ'
    ∧ σ !! cooked = None
    ∧ σ !! object = None
    ∧ σ' !! cooked
      = Some (OCrane Hot (mkCrane (grammar c) object (dependencies c)
                            (sourceLineMappings c) (Some this)))
    ∧ σ' !! object = Some (OHotActions t')
    ∧ (∀ id, t' !! id = (λ a, VFunction (evaluate a)) <$> t !! id)
    ∧ σ' !! this = Some (OCrane Cold c)
    ∧ coldActionsOf σ' this = Some t
    ∧ grammarOf σ' this = Some g
    ∧ grammarOf σ' cooked = Some g.
Proof.
  intros Hthis Hg Ht.
  pose proof (cook_run σ this c g t Hthis Hg Ht) as Hrun. simpl in Hrun.
  set (object := fresh (dom σ)) in *.
  set (σ1 := <[object := OHotActions ((λ a, VFunction (evaluate a)) <$> t)]> σ)
    in *.
  set (lines := fresh (dom σ1)) in *.
  set (σ2 := <[lines := OLines (replicate (length (productions g))
                                  (Some (-1)%Z))]> σ1) in *.
  set (cooked := fresh (dom σ2)) in *.
  set (σ' := <[cooked := _]> σ2) in Hrun.
  assert (Ho : σ !! object = None) by apply fresh_unused.
  assert (Hl : σ1 !! lines = None) by apply fresh_unused.
  assert (Hc : σ2 !! cooked = None) by apply fresh_unused.
  assert (H01 : σ ⊆ σ1) by (by apply insert_subseteq).
  assert (H12 : σ1 ⊆ σ2) by (by apply insert_subseteq).
  assert (H2' : σ2 ⊆ σ') by (by apply insert_subseteq).
  assert (Hsub : σ ⊆ σ') by (etrans; [|exact H2']; etrans; done).
  assert (Hobj : σ' !! object
                 = Some (OHotActions ((λ a, VFunction (evaluate a)) <$> t))).
  { apply (lookup_weaken σ1); [apply lookup_insert_eq|]. etrans; done. }
  exists cooked, object, σ', ((λ a, VFunction (evaluate a)) <$> t).
  split; [done|]. split; [done|].
  split.
  { destruct (σ !! cooked) eqn:E; [|done].
    assert (X : σ2 !! cooked = Some h)
      by (apply (lookup_weaken σ); [done|etrans; [exact H01|exact H12]]).
    congruence. }
  split; [done|].
  split; [apply lookup_insert_eq|].
  split; [done|].
  split; [intros id; apply lookup_fmap|].
  split; [by apply (lookup_weaken σ)|].
  split.
  { unfold coldActionsOf. rewrite (lookup_weaken _ _ _ _ Hthis Hsub).
    by rewrite (lookup_weaken _ _ _ _ Ht Hsub). }
  split.
  { unfold grammarOf. rewrite (lookup_weaken _ _ _ _ Hthis Hsub).
    by rewrite (lookup_weaken _ _ _ _ Hg Hsub). }
  unfold grammarOf. unfold σ' at 1. rewrite lookup_insert_eq. simpl.
  by rewrite (lookup_weaken _ _ _ _ Hg Hsub).
Qed.

(** ** [getLoc] *)

Lemma advance_valid (p : Position) (c : ascii) :
  validPosition p → validPosition (advance p c).
Proof.
  unfold validPosition, advance. intros [? ?].
  destruct (Ascii.eqb c newline); simpl; lia.
Qed.

Lemma foldl_advance_valid (cs : list ascii) (p : Position) :
  validPosition p → validPosition (foldl advance p cs).
Proof.
  revert p. induction cs as [|c cs IH]; intros p Hp; simpl; [done|].
  by apply IH, advance_valid.
Qed.

Lemma positionOf_valid (src : string) (k : nat) :
  validPosition (positionOf src k).
Proof. apply foldl_advance_valid. unfold validPosition. simpl. lia. Qed.

(** The line of a position is one more than the number of newlines passed,
    its column the number of characters passed since the last of them. *)
Lemma foldl_advance_line (cs : list ascii) (p : Position) :
  line (foldl advance p cs)
  = (line p + Z.of_nat (length (filter (λ c, c = newline) cs)))%Z.
Proof.
  revert p. induction cs as [|c cs IH]; intros p; simpl; [lia|].
  rewrite IH, filter_cons. unfold advance.
  destruct (Ascii.eqb_spec c newline) as [->|Hne].
  - rewrite decide_True by done. simpl. lia.
  - rewrite decide_False by done. simpl. lia.
Qed.

Lemma foldl_advance_column (cs : list ascii) (p : Position) :
  Forall (λ c, c ≠ newline) cs →
  column (foldl advance p cs) = (column p + Z.of_nat (length cs))%Z.
Proof.
  revert p. induction cs as [|c cs IH]; intros p Hcs; simpl; [lia|].
  apply Forall_cons in Hcs as [Hc Hcs]. rewrite IH by done.
  unfold advance. destruct (Ascii.eqb_spec c newline); [done|]. simpl. lia.
Qed.

Lemma foldl_advance_column_reset (before after : list ascii) (p : Position) :
  Forall (λ c, c ≠ newline) after →
  column (foldl advance p (before ++ newline :: after))
  = Z.of_nat (length after).
Proof.
  intros Hafter. rewrite foldl_app. simpl.
  rewrite foldl_advance_column by done.
  replace (column (advance (foldl advance p before) newline)) with 0%Z;
    [lia|].
  unfold advance. by rewrite Ascii.eqb_refl.
Qed.

Lemma positionOf_line (src : string) (k : nat) :
  line (positionOf src k)
  = (1 + Z.of_nat (length (filter (λ c, c = newline)
                             (take k (list_ascii_of_string src)))))%Z.
Proof. unfold positionOf. by rewrite foldl_advance_line. Qed.

(** The loop once the start offset has been found. *)
Lemma getLocFrom_end (src : string) (a b : nat) (p pos : Position) (i : nat) :
  getLocFrom src [a; b] [p] pos i
  = if bool_decide (i ≤ b ∧ b < i + String.length src)
    then Some (mkLoc (Some p)
                 (Some (foldl advance pos
                          (take (b - i) (list_ascii_of_string src)))))
    else None.
Proof.
  revert pos i. induction src as [|c rest IH]; intros pos i; simpl.
  - rewrite bool_decide_eq_false_2; [done|lia].
  - destruct (decide (b = i)) as [->|Hne].
    + rewrite bool_decide_eq_true_2 by done. simpl.
      rewrite bool_decide_eq_true_2 by lia. by rewrite Nat.sub_diag.
    + rewrite bool_decide_eq_false_2 by congruence.
      rewrite IH.
      destruct (decide (i ≤ b ∧ b < i + S (String.length rest))) as [H|H].
      * rewrite !bool_decide_eq_true_2 by lia.
        replace (b - i) with (S (b - S i)) by lia. done.
      * rewrite !bool_decide_eq_false_2 by lia. done.
Qed.

(** The loop from the start. *)
Lemma getLocFrom_start (src : string) (a b : nat) (pos : Position) (i : nat) :
  getLocFrom src [a; b] [] pos i
  = if bool_decide (i ≤ a ∧ a < b ∧ b < i + String.length src)
    then Some (mkLoc
                 (Some (foldl advance pos
                          (take (a - i) (list_ascii_of_string src))))
                 (Some (foldl advance pos
                          (take (b - i) (list_ascii_of_string src)))))
    else None.
Proof.
  revert pos i. induction src as [|c rest IH]; intros pos i; simpl.
  - rewrite bool_decide_eq_false_2; [done|lia].
  - destruct (decide (a = i)) as [->|Hne].
    + rewrite bool_decide_eq_true_2 by done. simpl.
      rewrite getLocFrom_end.
      destruct (decide (i < b ∧ b < i + S (String.length rest))) as [H|H].
      * rewrite !bool_decide_eq_true_2 by lia.
        rewrite Nat.sub_diag. simpl.
        replace (b - i) with (S (b - S i)) by lia. done.
      * rewrite !bool_decide_eq_false_2 by lia. done.
    + rewrite bool_decide_eq_false_2 by congruence.
      rewrite IH.
      destruct (decide (i ≤ a ∧ a < b ∧ b < i + S (String.length rest)))
        as [H|H].
      * rewrite !bool_decide_eq_true_2 by lia.
        replace (a - i) with (S (a - S i)) by lia.
        replace (b - i) with (S (b - S i)) by lia. done.
      * rewrite !bool_decide_eq_false_2 by lia. done.
Qed.

(** [getLoc] finds the two offsets exactly when the start is before the end
    and the end is inside the source. *)
Lemma getLoc_exact (token : Token) (a b : nat) :
  range token = [a; b] →
  getLoc token
  = if bool_decide (a < b ∧ b < String.length (source token))
    then Some (mkLoc (Some (positionOf (source token) a))
                     (Some (positionOf (source token) b)))
    else None.
Proof.
  intros Hr. unfold getLoc. rewrite Hr, getLocFrom_start.
  unfold positionOf. rewrite !Nat.sub_0_r.
  destruct (decide (a < b ∧ b < String.length (source token))) as [H|H].
  - rewrite !bool_decide_eq_true_2; [done|done|simpl; lia].
  - rewrite !bool_decide_eq_false_2; [done|done|simpl; lia].
Qed.

(** ** [compile] *)

Lemma pushAll_app (p0 : ParserState) (before after : list Token) :
  pushAll p0 (before ++ after)
  = (p ← pushAll p0 before; pushAll p after).
Proof.
  revert p0. induction before as [|tk before IH]; intros p0; simpl; [done|].
  destruct (Parser_push p0 tk) as [p1|e]; [apply IH|done].
Qed.

(** When [push] throws [e] on a token, [compile] throws what its handler
    makes of [e] and the token; the store is as it was, no grammar has been
    made. *)
Lemma compile_push_error (σ : gmap nat HeapObj) (str : string)
    (name : option string) (additional : string → option UserMacro)
    (before after : list Token) (token : Token) (p : ParserState)
    (e : JsError) :
  tokenize (str +:+ String newline "") = before ++ token :: after →
  pushAll (Parser_new str) before = Ok p →
  Parser_push p token = Throw e →
  compile str name additional σ = (Throw (rethrow e token), σ).
Proof.
  intros Htok Hbefore Hpush. unfold compile. run.
  rewrite Htok, pushAll_app, Hbefore. simpl. by rewrite Hpush.
Qed.

(** C10.  On a range of two offsets, [getLoc] returns a result only when
    both offsets are less than the length of the source; the result is the
    pair of the positions of the two offsets, lines counted from 1, columns
    from 0, the line advanced and the column reset at each newline.  When
    an offset is at or past the end of the source it returns [undefined];
    so when [push] throws on a token whose start offset is at or past the
    end of its source, the handler of [compile] reads [start] of
    [undefined], a type error. *)
Theorem getLoc_is_partial (token : Token) (a b : nat) :
  range token = [a; b] →
  (∀ loc, getLoc token = Some loc →
     a < String.length (source token)
     ∧ b < String.length (source token)
     ∧ start loc = Some (positionOf (source token) a)
     ∧ end_ loc = Some (positionOf (source token) b)
     ∧ validPosition (positionOf (source token) a)
     ∧ validPosition (positionOf (source token) b))
  ∧ (String.length (source token) ≤ a ∨ String.length (source token) ≤ b →
     getLoc token = None)
  ∧ (String.length (source token) ≤ a →
     ∀ σ str name additional before after p e,
       tokenize (str +:+ String newline "") = before ++ token :: after →
       pushAll (Parser_new str) before = Ok p →
       Parser_push p token = Throw e →
       compile str name additional σ
       = (Throw (TypeError
                   "Cannot read properties of undefined (reading 'start')"),
          σ)).
Proof.
  intros Hr. pose proof (getLoc_exact token a b Hr) as Hx.
  split; [|split].
  - intros loc Hloc. rewrite Hx in Hloc.
    destruct (decide (a < b ∧ b < String.length (source token))) as [H|H].
    + rewrite bool_decide_eq_true_2 in Hloc by done.
      injection Hloc as <-. simpl.
      repeat split; try lia; try apply positionOf_valid.
    + rewrite bool_decide_eq_false_2 in Hloc by done. discriminate.
  - intros H. rewrite Hx. rewrite bool_decide_eq_false_2; [done|lia].
  - intros Ha σ str name additional before after p e Htok Hbefore Hpush.
    rewrite (compile_push_error σ str name additional before after token p e)
      by done.
    unfold rethrow. rewrite Hx.
    rewrite bool_decide_eq_false_2; [done|lia].
Qed.

(** ** [toGrammar]: what the loops change *)

Arguments bodyLine : simpl never.
Arguments elementStep : simpl never.
Arguments productionStep : simpl never.
Arguments scopeStep : simpl never.

Lemma forOf_app {A B} (f : A → B → Result A) (a : A) (l1 l2 : list B) :
  forOf f a (l1 ++ l2) = (a' ← forOf f a l1; forOf f a' l2).
Proof.
  revert a. induction l1 as [|b l1 IH]; intros a; simpl; [done|].
  unfold mbind, Result_bind. destruct (f a b); [apply IH|done].
Qed.

Lemma forOf_preserves {A B} (R : A → A → Prop) (f : A → B → Result A) :
  (∀ a, R a a) →
  (∀ a b c, R a b → R b c → R a c) →
  (∀ a b a', f a b = Ok a' → R a a') →
  ∀ l a a', forOf f a l = Ok a' → R a a'.
Proof.
  intros Hrefl Htrans Hstep l.
  induction l as [|b l IH]; intros a a' H; simpl in H.
  - injection H as <-. apply Hrefl.
  - unfold mbind, Result_bind in H.
    destruct (f a b) as [a1|] eqn:E; [|discriminate].
    eapply Htrans; [eapply Hstep, E|by apply IH].
Qed.

Lemma grows_refl (st : State) : grows st st.
Proof. by repeat split. Qed.

Lemma grows_trans (a b c : State) : grows a b → grows b c → grows a c.
Proof.
  intros (?&?&?&?&?&?) (?&?&?&?&?&?).
  repeat split; try congruence. by etrans.
Qed.

Lemma pushList_grows (st : State) (es : list Entry) : grows st (pushList st es).
Proof. repeat split; simpl. by apply prefix_app_r. Qed.

Lemma multiple_grows (vars : Vars) (args : list (list Element))
    (st st' : State) (h : string) :
  multiple vars args st = Ok (h, st') → grows st st'.
Proof.
  unfold multiple. destruct args as [|first more]; [discriminate|].
  destruct (head first) as [e|]; [|discriminate].
  destruct (head more ≫= head) as [sep|]; intros H; injection H as _ <-;
    repeat split; simpl; rewrite <- app_assoc; by apply prefix_app_r.
Qed.

Lemma callMacro_grows (ctxt : string → option UserMacro) (vars : Vars)
    (name : string) (args : list (list Element)) (st st' : State) (h : string) :
  callMacro ctxt vars name args st = Ok (h, st') → grows st st'.
Proof.
  unfold callMacro. destruct (ctxt name) as [fn|].
  - unfold mbind, Result_bind.
    destruct (fn _ _ _) as [[h' i']|]; [|discriminate].
    intros H. injection H as _ <-. by repeat split.
  - destruct (String.eqb name "multiple"); [apply multiple_grows|discriminate].
Qed.

Lemma elementStep_grows (ctxt : string → option UserMacro) (vars : Vars)
    (acc : State * list Sym) (e : Element) (acc' : State * list Sym) :
  elementStep ctxt vars acc e = Ok acc' → grows acc.1 acc'.1.
Proof.
  destruct acc as [st reformed]. unfold elementStep.
  destruct e as [v|name args|path|name|]; simpl.
  - intros H. injection H as <-. apply grows_refl.
  - unfold mbind, Result_bind.
    destruct (callMacro ctxt vars name args st) as [[h st1]|] eqn:E;
      [|discriminate].
    destruct (hasProperty _ _ _); [discriminate|].
    intros H. injection H as <-. simpl. by eapply callMacro_grows.
  - destruct (chainLookup _ _ _); [|discriminate].
    intros H. injection H as <-. apply grows_refl.
  - destruct (chainLookup _ _ _); [|discriminate].
    intros H. injection H as <-. apply grows_refl.
  - intros H. injection H as <-. apply grows_refl.
Qed.

Lemma productionStep_grows (ctxt : string → option UserMacro) (name : string)
    (vars : Vars) (st : State) (p : ProductionLine) (st' : State) :
  productionStep ctxt name vars st p = Ok st' → grows st st'.
Proof.
  unfold productionStep, mbind, Result_bind.
  destruct (forOf _ _ _) as [[st1 reformed]|] eqn:E; [|discriminate].
  intros H. injection H as <-.
  eapply grows_trans; [|apply pushList_grows].
  apply (forOf_preserves (λ x y, grows x.1 y.1) (elementStep ctxt vars)
           (λ a, grows_refl a.1)
           (λ a b c, grows_trans a.1 b.1 c.1)
           (elementStep_grows ctxt vars) _ _ _ E).
Qed.

Lemma productions_grow (ctxt : string → option UserMacro) (name : string)
    (vars : Vars) (ps : list ProductionLine) (st st' : State) :
  forOf (productionStep ctxt name vars) st ps = Ok st' → grows st st'.
Proof.
  apply (forOf_preserves grows); [apply grows_refl|apply grows_trans|].
  apply productionStep_grows.
Qed.

Lemma length_zero_empty (s : string) : String.length s = 0 ↔ s = ""%string.
Proof. destruct s; simpl; split; (done || discriminate). Qed.

Lemma ntTypeOf_top (d : string) : ntTypeOf "" d = d.
Proof. done. Qed.

Lemma append_empty (a b : string) : a +:+ b = ""%string → a = ""%string.
Proof. destruct a; [done|discriminate]. Qed.

Lemma ntTypeOf_named (name d : string) :
  name ≠ ""%string → ntTypeOf name d ≠ ""%string.
Proof. intros Hn H. unfold ntTypeOf in H. by apply append_empty in H. Qed.

Lemma bodyLine_inv (rootName : option string) (name : string) (vars : Vars)
    (st : State) (ps : list ProductionLine) (l : Line)
    (st' : State) (ps' : list ProductionLine) :
  bodyLine rootName name vars (st, ps) l = Ok (st', ps') →
  st_precedence st' = st_precedence st ++ declaredLevels [l]
  ∧ (name ≠ ""%string → declaredLevels [l] = [])
  ∧ scopeKey <$> st_defs st' = (scopeKey <$> st_defs st) ++ childScopes name [l]
  ∧ (st_list st ≠ [] → st_list st' = st_list st)
  ∧ (st_list st = [] →
     match definedName l with
     | Some d => ∃ ℓ, st_list st' = [rootEntry ℓ rootName (ntTypeOf name d)]
     | None => st_list st' = []
     end).
Proof.
  unfold bodyLine.
  destruct l as [loc kind toks|loc d b|loc prod code prc|loc src|loc]; simpl.
  - destruct (decide (0 < String.length name)) as [Hn|Hn]; [discriminate|].
    intros H. injection H as <- <-. simpl.
    repeat split; try done.
    + intros Hne. exfalso. apply Hne, length_zero_empty. lia.
    + by rewrite app_nil_r.
  - intros H. injection H as <- <-. simpl.
    repeat split; try done.
    + by rewrite app_nil_r.
    + by rewrite fmap_app.
    + intros Hne. destruct (decide (length (st_list st) = 0)) as [E|E]; [|done].
      by destruct (st_list st).
    + intros ->. simpl. eauto.
  - destruct (decide (String.length name = 0)); [discriminate|].
    intros H. injection H as <- <-. simpl.
    repeat split; try done; by rewrite app_nil_r.
  - intros H. injection H as <- <-. simpl.
    repeat split; try done; by rewrite app_nil_r.
  - intros H. injection H as <- <-. simpl.
    repeat split; try done; by rewrite app_nil_r.
Qed.

Lemma bodyLoop_inv (rootName : option string) (name : string) (vars : Vars)
    (body : list Line) (st : State) (ps : list ProductionLine)
    (st' : State) (ps' : list ProductionLine) :
  forOf (bodyLine rootName name vars) (st, ps) body = Ok (st', ps') →
  st_precedence st' = st_precedence st ++ declaredLevels body
  ∧ (name ≠ ""%string → declaredLevels body = [])
  ∧ scopeKey <$> st_defs st' = (scopeKey <$> st_defs st) ++ childScopes name body
  ∧ (st_list st ≠ [] → st_list st' = st_list st)
  ∧ (st_list st = [] →
     match firstDefinition body with
     | Some d => ∃ ℓ, st_list st' = [rootEntry ℓ rootName (ntTypeOf name d)]
     | None => st_list st' = []
     end).
Proof.
  revert st ps. induction body as [|l body IH]; intros st ps H; simpl in H.
  - simplify_eq. unfold declaredLevels, childScopes. simpl.
    rewrite !app_nil_r. by repeat split.
  - unfold mbind, Result_bind in H.
    destruct (bodyLine rootName name vars (st, ps) l) as [[st1 ps1]|] eqn:E;
      simpl in H; [|discriminate].
    apply bodyLine_inv in E as (Ep & En & Ed & El1 & El2).
    apply IH in H as (Hp & Hn & Hd & Hl1 & Hl2).
    unfold declaredLevels, childScopes, firstDefinition in *.
    simpl in *.
    repeat split.
    + rewrite Hp, Ep. rewrite <- app_assoc. f_equal.
      by destruct (levelOfLine l).
    + intros Hne. specialize (En Hne). specialize (Hn Hne).
      destruct (levelOfLine l); [discriminate|done].
    + rewrite Hd, Ed. rewrite <- app_assoc. f_equal.
      by destruct (childOfLine name l).
    + intros Hne. rewrite Hl1; [by apply El1|]. by rewrite El1.
    + intros Hnil. specialize (El2 Hnil).
      destruct (definedName l) as [d|]; simpl.
      * destruct El2 as [ℓ El2]. exists ℓ. rewrite Hl1; [done|by rewrite El2].
      * by apply Hl2.
Qed.

Lemma scopeStep_inv (ctxt : string → option UserMacro)
    (rootName : option string) (d : Scope) (st st' : State) :
  scopeStep ctxt rootName d st = Ok st' →
  st_precedence st' = st_precedence st ++ declaredLevels (scope_body d)
  ∧ (scope_name d ≠ ""%string → declaredLevels (scope_body d) = [])
  ∧ scopeKey <$> st_defs st'
    = (scopeKey <$> st_defs st) ++ childScopes (scope_name d) (scope_body d)
  ∧ st_list st `prefix_of` st_list st'
  ∧ (st_list st = [] →
     match firstDefinition (scope_body d) with
     | Some dn =>
         ∃ ℓ, [rootEntry ℓ rootName (ntTypeOf (scope_name d) dn)]
                `prefix_of` st_list st'
     | None => True
     end).
Proof.
  unfold scopeStep, mbind, Result_bind.
  destruct (forOf (bodyLine _ _ _) _ _) as [[st1 ps]|] eqn:E; [|discriminate].
  intros H. apply productions_grow in H as (Hp & Hd & Hl & _).
  apply bodyLoop_inv in E as (Ep & En & Ed & El1 & El2).
  repeat split.
  - by rewrite Hp.
  - done.
  - by rewrite Hd.
  - destruct (st_list st) as [|e l] eqn:Hnil; [apply prefix_nil|].
    rewrite <- El1 by done. done.
  - intros Hnil. specialize (El2 Hnil).
    destruct (firstDefinition (scope_body d)); [|done].
    destruct El2 as [ℓ El2]. exists ℓ. by rewrite <- El2.
Qed.

Lemma pendingKeys_app (k1 k2 : list (string * list Line)) :
  pendingKeys (k1 ++ k2) = pendingKeys k1 + pendingKeys k2.
Proof. unfold pendingKeys. by rewrite fmap_app, list_sum_app. Qed.

Lemma pendingKeys_children (name : string) (body : list Line) :
  S (pendingKeys (childScopes name body)) = scopesOf body.
Proof.
  unfold pendingKeys, childScopes, scopesOf. f_equal.
  induction body as [|l body IH]; simpl; [done|].
  destruct l; simpl; first [exact IH | do 2 f_equal; exact IH].
Qed.

Lemma pending_cons (d : Scope) (rest : list Scope) :
  pending (d :: rest) = scopesOf (scope_body d) + pending rest.
Proof. done. Qed.

(** The loop ends: the bound given by [collect] is enough. *)
Lemma whileDefs_total (ctxt : string → option UserMacro)
    (rootName : option string) (turns : nat) (st : State) :
  pending (st_defs st) ≤ turns →
  is_Some (whileDefs ctxt rootName turns st).
Proof.
  revert st. induction turns as [|turns IH]; intros st Hle.
  - destruct (st_defs st) as [|d rest] eqn:Hd; simpl; rewrite Hd;
      [by eexists|].
    rewrite pending_cons in Hle. unfold scopesOf in Hle. lia.
  - simpl. destruct (st_defs st) as [|d rest] eqn:Hd; [by eexists|].
    destruct (scopeStep _ _ _ _) as [st'|e] eqn:E; [|by eexists].
    apply IH. apply scopeStep_inv in E as (_ & _ & Ed & _). simpl in Ed.
    rewrite pending_cons in Hle.
    rewrite <- (pendingKeys_children (scope_name d)) in Hle.
    unfold pending. rewrite Ed, pendingKeys_app.
    fold (pending rest). lia.
Qed.

Lemma collect_total (code : list Line) (rootName : option string)
    (ctxt : string → option UserMacro) :
  is_Some (collect code rootName ctxt).
Proof.
  apply whileDefs_total. simpl. rewrite pending_cons. simpl.
  unfold pending, pendingKeys, scopesOf. simpl. lia.
Qed.

Lemma whileDefs_prefix (ctxt : string → option UserMacro)
    (rootName : option string) (turns : nat) (st st' : State) :
  whileDefs ctxt rootName turns st = Some (Ok st') →
  st_list st `prefix_of` st_list st'.
Proof.
  revert st. induction turns as [|turns IH]; intros st; simpl;
    destruct (st_defs st) as [|d rest] eqn:Hd; try discriminate;
    try (intros H; by simplify_eq).
  destruct (scopeStep _ _ _ _) as [st1|e] eqn:E; [|discriminate].
  intros H. apply IH in H.
  apply scopeStep_inv in E as (_ & _ & _ & El & _). simpl in El.
  by etrans.
Qed.

(** The first entry of the collected list, when the document defines a
    non-terminal, is the root production on the first one defined. *)
Lemma collect_root (code : list Line) (rootName : option string)
    (ctxt : string → option UserMacro) (st : State) (d : string) :
  collect code rootName ctxt = Some (Ok st) →
  firstDefinition code = Some d →
  ∃ ℓ, st_list st !! 0 = Some (rootEntry ℓ rootName d).
Proof.
  unfold collect, scopesOf. simpl.
  destruct (scopeStep _ _ _ _) as [st1|e] eqn:E; [|discriminate].
  intros H Hfirst. apply whileDefs_prefix in H.
  apply scopeStep_inv in E as (_ & _ & _ & _ & El). simpl in El.
  specialize (El eq_refl). rewrite Hfirst in El. destruct El as [ℓ El].
  exists ℓ. rewrite ntTypeOf_top in El.
  apply (prefix_lookup_Some [rootEntry ℓ rootName d]); [done|by etrans].
Qed.

(** ** [toGrammar]: the crane grammar it builds *)

Lemma mapSourceLines_run (entries : list Entry) (σ : gmap nat HeapObj)
    (cg i : nat) cls c a :
  σ !! cg = Some (OCrane cls c) →
  σ !! sourceLineMappings c = Some (OLines a) →
  mapSourceLines cg i entries σ
  = (Ok tt, <[sourceLineMappings c := OLines (mappedLines i entries a)]> σ).
Proof.
  revert σ i a. induction entries as [|p rest IH]; intros σ i a Hcg Ha; simpl.
  - run. by rewrite insert_id.
  - assert (Hne : sourceLineMappings c ≠ cg)
      by (intros E; rewrite E in Ha; congruence).
    unfold addSourceLineMapping. run. rewrite Hcg. simpl. rewrite Ha. simpl.
    rewrite (IH _ _ (arraySet a i (entry_line p))).
    + by rewrite insert_insert_eq.
    + by rewrite lookup_insert_ne.
    + by rewrite lookup_insert_eq.
Qed.

(** The store after a call of [toGrammar] that returns: four objects have
    been added to it. *)
Lemma toGrammar_inv (code : list Line) (rootName : option string)
    (ctxt : string → option UserMacro) (σ σ' : gmap nat HeapObj) (cg : nat) :
  toGrammar code rootName ctxt σ = (Ok cg, σ') →
  ∃ st t c,
    collect code rootName ctxt = Some (Ok st)
    ∧ compileActions 0 (st_list st) ∅ = Ok t
    ∧ σ ⊆ σ'
    ∧ σ !! cg = None
    ∧ σ' !! cg = Some (OCrane Cold c)
    ∧ σ' !! grammar c
      = Some (OGrammar (mkGrammar (toProduction <$> st_list st) 0
                          (st_precedence st)))
    ∧ σ' !! actions c = Some (OColdActions t)
    ∧ σ' !! dependencies c = Some (ODependencies (st_dependencies st))
    ∧ σ' !! sourceLineMappings c
      = Some (OLines (mappedLines 0 (st_list st)
                        (replicate (length (st_list st)) (Some (-1)%Z)))).
Proof.
  unfold toGrammar.
  destruct (collect code rootName ctxt) as [[st|e]|]; [|by run|by run].
  unfold mbind at 1, M_bind at 1, liftResult at 1.
  unfold mbind at 1, M_bind at 1, liftResult at 1.
  destruct (compileActions 0 (st_list st) ∅) as [t|e] eqn:Hcomp; [|done].
  set (g := mkGrammar (toProduction <$> st_list st) 0 (st_precedence st)).
  set (lg := fresh (dom σ)).
  set (σ1 := <[lg := OGrammar g]> σ).
  set (la := fresh (dom σ1)).
  set (σ2 := <[la := OColdActions t]> σ1).
  set (ld := fresh (dom σ2)).
  set (σ3 := <[ld := ODependencies (st_dependencies st)]> σ2).
  set (ll := fresh (dom σ3)).
  set (σ4 := <[ll := OLines (replicate (length (st_list st)) (Some (-1)%Z))]> σ3).
  set (lc := fresh (dom σ4)).
  set (c := mkCrane lg la ld ll None).
  set (σ5 := <[lc := OCrane Cold c]> σ4).
  assert (H1 : σ !! lg = None) by apply fresh_unused.
  assert (H2 : σ1 !! la = None) by apply fresh_unused.
  assert (H3 : σ2 !! ld = None) by apply fresh_unused.
  assert (H4 : σ3 !! ll = None) by apply fresh_unused.
  assert (H5 : σ4 !! lc = None) by apply fresh_unused.
  assert (S1 : σ ⊆ σ1) by (by apply insert_subseteq).
  assert (S2 : σ1 ⊆ σ2) by (by apply insert_subseteq).
  assert (S3 : σ2 ⊆ σ3) by (by apply insert_subseteq).
  assert (S4 : σ3 ⊆ σ4) by (by apply insert_subseteq).
  assert (S5 : σ4 ⊆ σ5) by (by apply insert_subseteq).
  assert (G3 : σ3 !! lg = Some (OGrammar g)).
  { apply (lookup_weaken σ1); [apply lookup_insert_eq|by etrans]. }
  assert (L5 : σ5 !! ll
               = Some (OLines (replicate (length (st_list st)) (Some (-1)%Z)))).
  { apply (lookup_weaken σ4); [apply lookup_insert_eq|done]. }
  assert (C5 : σ5 !! lc = Some (OCrane Cold c)) by apply lookup_insert_eq.
  assert (Hrun :
    (grammarRef ← alloc (OGrammar g);
     actionsRef ← alloc (OColdActions t);
     dependenciesRef ← alloc (ODependencies (st_dependencies st));
     craneGrammar ← ColdCraneGrammar_new grammarRef actionsRef dependenciesRef;
     _ ← mapSourceLines craneGrammar 0 (st_list st);
     mret craneGrammar) σ
    = (Ok lc, <[ll := OLines (mappedLines 0 (st_list st)
                               (replicate (length (st_list st))
                                  (Some (-1)%Z)))]> σ5)).
  { unfold ColdCraneGrammar_new, CraneGrammar_new. run.
    fold lg. fold σ1. fold la. fold σ2. fold ld. fold σ3.
    rewrite G3. simpl. rewrite length_fmap. fold ll. fold σ4. fold lc.
    fold c. fold σ5.
    by rewrite (mapSourceLines_run (st_list st) σ5 lc 0 Cold c _ C5 L5). }
  simpl. rewrite Hrun. intros H. injection H as <- <-.
  assert (Hll : ll ≠ lc) by (intros E; rewrite E in L5; congruence).
  assert (S02 : σ ⊆ σ2) by (etrans; [exact S1|exact S2]).
  assert (S03 : σ ⊆ σ3) by (etrans; [exact S02|exact S3]).
  assert (S04 : σ ⊆ σ4) by (etrans; [exact S03|exact S4]).
  assert (S05 : σ ⊆ σ5) by (etrans; [exact S04|exact S5]).
  assert (S25 : σ2 ⊆ σ5)
    by (etrans; [exact S3|]; etrans; [exact S4|exact S5]).
  exists st, t, c. split; [done|]. split; [done|].
  split.
  { apply insert_subseteq_r; [|exact S05].
    destruct (σ !! ll) eqn:E; [|done].
    assert (X : σ3 !! ll = Some h) by (by apply (lookup_weaken σ)).
    congruence. }
  split.
  { destruct (σ !! lc) eqn:E; [|done].
    assert (X : σ4 !! lc = Some h) by (by apply (lookup_weaken σ)).
    congruence. }
  assert (F : ∀ l o, l ≠ ll → σ5 !! l = Some o →
              <[ll := OLines (mappedLines 0 (st_list st)
                                (replicate (length (st_list st))
                                   (Some (-1)%Z)))]> σ5 !! l = Some o).
  { intros l o Hl Ho. by rewrite lookup_insert_ne. }
  split; [apply F; [done|exact C5]|].
  simpl.
  split.
  { apply F; [intros E; rewrite <- E in H4; congruence|].
    apply (lookup_weaken σ3); [done|by etrans]. }
  split.
  { apply F.
    - intros E. rewrite <- E in H4.
      assert (σ3 !! la = Some (OColdActions t)); [|congruence].
      apply (lookup_weaken σ2); [apply lookup_insert_eq|done].
    - apply (lookup_weaken σ2); [apply lookup_insert_eq|exact S25]. }
  split.
  { apply F.
    - intros E. rewrite <- E in H4. unfold σ3 in H4.
      rewrite lookup_insert_eq in H4. discriminate.
    - apply (lookup_weaken σ3); [apply lookup_insert_eq|by etrans]. }
  apply lookup_insert_eq.
Qed.

(** A call of [toGrammar] that throws leaves the store as it was. *)
Lemma toGrammar_throw (code : list Line) (rootName : option string)
    (ctxt : string → option UserMacro) (σ σ' : gmap nat HeapObj) (e : JsError) :
  toGrammar code rootName ctxt σ = (Throw e, σ') → σ' = σ.
Proof.
  unfold toGrammar.
  destruct (collect code rootName ctxt) as [[st|e0]|];
    [|run; congruence|run; congruence].
  unfold mbind at 1, M_bind at 1, liftResult at 1.
  unfold mbind at 1, M_bind at 1, liftResult at 1.
  destruct (compileActions 0 (st_list st) ∅) as [t|e1]; [|congruence].
  unfold ColdCraneGrammar_new, CraneGrammar_new. run.
  set (g := mkGrammar (toProduction <$> st_list st) 0 (st_precedence st)).
  set (lg := fresh (dom σ)).
  set (σ1 := <[lg := OGrammar g]> σ).
  set (la := fresh (dom σ1)).
  set (σ2 := <[la := OColdActions t]> σ1).
  set (ld := fresh (dom σ2)).
  set (σ3 := <[ld := ODependencies (st_dependencies st)]> σ2).
  assert (H2 : σ1 !! la = None) by apply fresh_unused.
  assert (H3 : σ2 !! ld = None) by apply fresh_unused.
  assert (G3 : σ3 !! lg = Some (OGrammar g)).
  { apply (lookup_weaken σ1); [apply lookup_insert_eq|].
    etrans; by apply insert_subseteq. }
  rewrite G3. simpl.
  set (ll := fresh (dom σ3)).
  set (σ4 := <[ll := _]> σ3).
  set (lc := fresh (dom σ4)).
  set (σ5 := <[lc := _]> σ4).
  assert (H5 : σ4 !! lc = None) by apply fresh_unused.
  erewrite (mapSourceLines_run _ σ5 lc 0 Cold).
  - discriminate.
  - apply lookup_insert_eq.
  - simpl. apply (lookup_weaken σ4); [apply lookup_insert_eq|].
    by apply insert_subseteq.
Qed.

Lemma firstDefinition_exists (code : list Line) (loc : option Z)
    (d : string) (b : list Line) :
  LDefinition loc d b ∈ code → is_Some (firstDefinition code).
Proof.
  unfold firstDefinition. induction code as [|l code IH]; intros Hin.
  - by apply elem_of_nil in Hin.
  - apply elem_of_cons in Hin as [<-|Hin]; simpl; [by eexists|].
    destruct (definedName l); [by eexists|]. by apply IH.
Qed.

(** C2.  When the body of the document has a definition and [toGrammar]
    returns, the grammar of the result has root index 0 and its production 0
    is the root production [$$$], whose right-hand side is one symbol: the
    root name given, or, when none is given, the first non-terminal the
    document defines. *)
Theorem toGrammar_root_production (code : list Line)
    (rootName : option string) (ctxt : string → option UserMacro)
    (σ σ' : gmap nat HeapObj) (cg : nat) (loc : option Z) (d0 : string)
    (b : list Line) :
  toGrammar code rootName ctxt σ = (Ok cg, σ') →
  LDefinition loc d0 b ∈ code →
  ∃ g d,
    grammarOf σ' cg = Some g
    ∧ firstDefinition code = Some d
    ∧ root g = 0
    ∧ productions g !! 0
      = Some (mkProduction "$$$" [SymStr (rootOr rootName d)] PrecUndefined)
    ∧ (rootName = None → rootOr rootName d = d)
    ∧ (∀ r, rootName = Some r → r ≠ ""%string → rootOr rootName d = r).
Proof.
  intros Hrun Hin.
  destruct (firstDefinition_exists code loc d0 b Hin) as [d Hd].
  apply toGrammar_inv in Hrun
    as (st & t & c & Hcol & _ & _ & _ & Hcg & Hg & _).
  destruct (collect_root code rootName ctxt st d Hcol Hd) as [ℓ Hroot].
  eexists _, d. split.
  { unfold grammarOf. rewrite Hcg. by rewrite Hg. }
  split; [done|]. split; [done|].
  split.
  { simpl. rewrite list_lookup_fmap, Hroot. done. }
  split.
  - by intros ->.
  - intros r -> Hr. simpl. destruct (String.eqb_spec r ""); [done|done].
Qed.

(** ** [toGrammar]: the action table *)

(** The production made of an entry is the object that [extractor] makes of
    the entry's object. *)
Lemma extractor_entry (o : Entry) :
  extractor ["type"; "production"; "prec"]%string (entryObject o)
  = productionObject (toProduction o).
Proof.
  unfold extractor, entryObject, productionObject, toProduction. simpl.
  destruct (entry_prec o) as [| |t]; apply map_eq; intros k;
    repeat (rewrite ?lookup_insert; case_decide; subst; simpl; try done).
  all: by rewrite lookup_singleton_ne, lookup_empty.
Qed.

Lemma compileActions_lookup (entries : list Entry) (i : nat)
    (obj t : gmap nat JsAst) :
  compileActions i entries obj = Ok t →
  (∀ k, k < i → t !! k = obj !! k)
  ∧ (∀ k, i + length entries ≤ k → t !! k = obj !! k)
  ∧ (∀ k e, entries !! k = Some e →
       if truthy (entry_code e)
       then ∃ ast, compileLS (default ""%string (entry_code e)) [] = Ok ast
                   ∧ t !! (i + k) = Some ast
       else t !! (i + k) = obj !! (i + k)).
Proof.
  revert i obj. induction entries as [|e rest IH]; intros i obj H; simpl in H.
  - injection H as <-.
    repeat split; try done; intros k e He; by rewrite lookup_nil in He.
  - assert (Hstep : ∃ obj', compileActions (S i) rest obj' = Ok t
              ∧ (∀ k, k ≠ i → obj' !! k = obj !! k)
              ∧ if truthy (entry_code e)
                then ∃ ast, compileLS (default ""%string (entry_code e)) []
                            = Ok ast ∧ obj' !! i = Some ast
                else obj' !! i = obj !! i).
    { destruct (truthy (entry_code e)).
      - unfold mbind, Result_bind in H.
        destruct (compileLS _ _) as [ast|]; [|discriminate].
        exists (<[i := ast]> obj). split; [done|]. split.
        + intros k Hk. by rewrite lookup_insert_ne.
        + exists ast. by rewrite lookup_insert_eq.
      - by exists obj. }
    destruct Hstep as (obj' & Hrest & Hother & Hhere).
    apply IH in Hrest as (Hlow & Hhigh & Hin).
    repeat split.
    + intros k Hk. rewrite Hlow by lia. apply Hother. lia.
    + intros k Hk. simpl in Hk. rewrite Hhigh by lia. apply Hother. lia.
    + intros [|k] e' He'; simpl in He'.
      * injection He' as <-. rewrite Nat.add_0_r. rewrite Hlow by lia.
        destruct (truthy (entry_code e)); [|done].
        destruct Hhere as (ast & ? & ?). by exists ast.
      * specialize (Hin k e' He').
        replace (i + S k) with (S i + k) by lia.
        destruct (truthy (entry_code e')); [done|].
        rewrite Hin. apply Hother. lia.
Qed.

(** C4.  In the cold crane grammar that [toGrammar] returns, the action
    table has an entry under [i] exactly when entry [i] of the collected
    list has a truthy code snippet, the entry is that snippet compiled, and
    the productions of the grammar are the entries of the list in order,
    each reduced to its [type], [production] and [prec]: the action under
    [i] belongs to production [i]. *)
Theorem toGrammar_actions_follow_list (code : list Line)
    (rootName : option string) (ctxt : string → option UserMacro)
    (σ σ' : gmap nat HeapObj) (cg : nat) :
  toGrammar code rootName ctxt σ = (Ok cg, σ') →
  ∃ st g t,
    collect code rootName ctxt = Some (Ok st)
    ∧ grammarOf σ' cg = Some g
    ∧ coldActionsOf σ' cg = Some t
    ∧ productions g = toProduction <$> st_list st
    ∧ (∀ i, is_Some (t !! i)
            ↔ ∃ e, st_list st !! i = Some e ∧ truthy (entry_code e) = true)
    ∧ (∀ i ast, t !! i = Some ast →
         ∃ e snippet,
           st_list st !! i = Some e
           ∧ entry_code e = Some snippet
           ∧ compileLS snippet [] = Ok ast
           ∧ productions g !! i
             = Some (mkProduction (entry_type e) (entry_production e)
                       (entry_prec e))).
Proof.
  intros Hrun.
  apply toGrammar_inv in Hrun
    as (st & t & c & Hcol & Hcomp & _ & _ & Hcg & Hg & Ha & _).
  apply compileActions_lookup in Hcomp as (_ & Hhigh & Hin).
  assert (Hsome : ∀ i ast, t !! i = Some ast →
            ∃ e, st_list st !! i = Some e ∧ truthy (entry_code e) = true
                 ∧ compileLS (default ""%string (entry_code e)) [] = Ok ast).
  { intros i ast Hi.
    destruct (st_list st !! i) as [e|] eqn:He.
    - specialize (Hin i e He). simpl in Hin.
      destruct (truthy (entry_code e)) eqn:Htr.
      + destruct Hin as (ast' & Hc & Ht). exists e.
        rewrite Ht in Hi. injection Hi as <-. by repeat split.
      + rewrite Hin, lookup_empty in Hi. discriminate.
    - apply lookup_ge_None in He. rewrite Hhigh in Hi by (simpl; lia).
      by rewrite lookup_empty in Hi. }
  exists st, (mkGrammar (toProduction <$> st_list st) 0 (st_precedence st)), t.
  split; [done|].
  split; [unfold grammarOf; rewrite Hcg; by rewrite Hg|].
  split; [unfold coldActionsOf; rewrite Hcg; by rewrite Ha|].
  split; [done|].
  split.
  - intros i. split.
    + intros [ast Hi]. destruct (Hsome i ast Hi) as (e & ? & ? & _). by exists e.
    + intros (e & He & Htr). specialize (Hin i e He). simpl in Hin.
      rewrite Htr in Hin. destruct Hin as (ast & _ & Hi). by exists ast.
  - intros i ast Hi. destruct (Hsome i ast Hi) as (e & He & Htr & Hc).
    destruct (entry_code e) as [snippet|] eqn:Hcode; [|discriminate].
    exists e, snippet. split; [done|]. split; [done|]. split; [done|].
    simpl. by rewrite list_lookup_fmap, He.
Qed.

(** ** Action keys are production ids

    The tables that the module makes have no key past the productions: what
    [toGrammar] returns, what [cook] makes of it, and what [augment]
    leaves.  On such a table the id that [augment] gives to the production
    it appends is free. *)

Lemma keysWithin_next {V} (g : Grammar) (t : gmap nat V) :
  keysWithin g t → t !! length (productions g) = None.
Proof.
  intros H. destruct (t !! length (productions g)) as [v|] eqn:E; [|done].
  specialize (H (length (productions g))). rewrite E in H.
  assert (length (productions g) < length (productions g)) by (apply H; eauto).
  lia.
Qed.

(** X10.  In the crane grammar that [toGrammar] returns, every key of the
    table of action nodes is the id of a production of the grammar. *)
Lemma toGrammar_keysWithin (code : list Line) (rootName : option string)
    (ctxt : string → option UserMacro) (σ σ' : gmap nat HeapObj) (cg : nat) :
  toGrammar code rootName ctxt σ = (Ok cg, σ') →
  ∃ g t, grammarOf σ' cg = Some g ∧ coldActionsOf σ' cg = Some t
         ∧ keysWithin g t.
Proof.
  intros Hrun.
  apply toGrammar_inv in Hrun
    as (st & t & c & _ & Hcomp & _ & _ & Hcg & Hg & Ha & _).
  apply compileActions_lookup in Hcomp as (_ & Hhigh & _).
  eexists _, t.
  split; [unfold grammarOf; rewrite Hcg; by rewrite Hg|].
  split; [unfold coldActionsOf; rewrite Hcg; by rewrite Ha|].
  intros id [ast Hid]. simpl. rewrite length_fmap.
  destruct (decide (id < length (st_list st))) as [|Hge]; [done|].
  rewrite Hhigh in Hid by (simpl; lia). by rewrite lookup_empty in Hid.
Qed.

(** X11.  [cook()] keeps the keys of the table within the ids of the
    productions: when every key of the table of action nodes of a cold
    crane grammar is the id of a production, so is every key of the table
    of bound actions of the cooked one. *)
Lemma cook_keysWithin (σ : gmap nat HeapObj) (this : nat) (c : CraneFields)
    (g : Grammar) (t : gmap nat JsAst) :
  σ !! this = Some (OCrane Cold c) →
  σ !! grammar c = Some (OGrammar g) →
  σ !! actions c = Some (OColdActions t) →
  keysWithin g t →
  ∃ cooked σ' t',
    cook this σ = (Ok cooked, σ')
    ∧ grammarOf σ' cooked = Some g
    ∧ hotActionsOf σ' cooked = Some t'
    ∧ keysWithin g t'.
Proof.
  intros Hthis Hg Ht Hkeys.
  pose proof (cook_run σ this c g t Hthis Hg Ht) as Hrun. simpl in Hrun.
  set (object := fresh (dom σ)) in *.
  set (σ1 := <[object := OHotActions ((λ a, VFunction (evaluate a)) <$> t)]> σ)
    in *.
  set (lines := fresh (dom σ1)) in *.
  set (σ2 := <[lines := OLines (replicate (length (productions g))
                                  (Some (-1)%Z))]> σ1) in *.
  set (cooked := fresh (dom σ2)) in *.
  assert (Ho : σ !! object = None) by apply fresh_unused.
  assert (Hl : σ1 !! lines = None) by apply fresh_unused.
  assert (Hc : σ2 !! cooked = None) by apply fresh_unused.
  assert (H12 : σ1 ⊆ σ2) by (by apply insert_subseteq).
  assert (H02 : σ ⊆ σ2)
    by (etrans; [by apply (insert_subseteq σ object)|exact H12]).
  assert (Hobj : σ2 !! object
                 = Some (OHotActions ((λ a, VFunction (evaluate a)) <$> t)))
    by (apply (lookup_weaken σ1); [apply lookup_insert_eq|done]).
  assert (Hg2 : σ2 !! grammar c = Some (OGrammar g))
    by (by apply (lookup_weaken σ)).
  eexists cooked, _, ((λ a, VFunction (evaluate a)) <$> t).
  split; [exact Hrun|].
  split.
  { unfold grammarOf. rewrite lookup_insert_eq. simpl.
    rewrite lookup_insert_ne by (intros E; rewrite E in Hc; congruence).
    by rewrite Hg2. }
  split.
  { unfold hotActionsOf. rewrite lookup_insert_eq. simpl.
    rewrite lookup_insert_ne by (intros E; rewrite E in Hc; congruence).
    by rewrite Hobj. }
  intros id. rewrite lookup_fmap. intros [v Hv]. apply Hkeys.
  destruct (t !! id); [by eexists|discriminate].
Qed.

(** X12.  [augment] keeps the keys of the table within the ids of the
    productions: the key it may add is the id of the production it adds. *)
Lemma augment_keysWithin (σ : gmap nat HeapObj) (this : nat) c g t nt toks
    action :
  σ !! this = Some (OCrane Hot c) →
  σ !! grammar c = Some (OGrammar g) →
  σ !! actions c = Some (OHotActions t) →
  keysWithin g t →
  ∃ σ' g' t',
    augment this nt toks action σ = (Ok tt, σ')
    ∧ grammarOf σ' this = Some g'
    ∧ hotActionsOf σ' this = Some t'
    ∧ keysWithin g' t'.
Proof.
  intros Hthis Hg Ht Hkeys.
  assert (Hne : actions c ≠ grammar c) by (intros E; rewrite E in Ht; congruence).
  assert (Hn1 : grammar c ≠ this) by (intros E; rewrite E in Hg; congruence).
  assert (Hn2 : actions c ≠ this) by (intros E; rewrite E in Ht; congruence).
  eexists _, (addProduction g nt toks emptyMeta).1,
    (if String.eqb (typeof action) "function"
     then <[length (productions g) := action]> t else t).
  split; [exact (augment_run σ this c g t nt toks action Hthis Hg Ht)|].
  split.
  { unfold grammarOf. rewrite lookup_insert_ne by done.
    destruct (String.eqb (typeof action) "function").
    - rewrite lookup_insert_ne by done. rewrite Hthis.
      by rewrite lookup_insert_eq.
    - rewrite Hthis. by rewrite lookup_insert_eq. }
  split.
  { unfold hotActionsOf. rewrite lookup_insert_ne by done.
    destruct (String.eqb (typeof action) "function").
    - rewrite lookup_insert_ne by done. rewrite Hthis.
      rewrite lookup_insert_ne by done. by rewrite lookup_insert_eq.
    - rewrite Hthis. rewrite lookup_insert_ne by done. by rewrite Ht. }
  intros id Hid. simpl. rewrite length_app. simpl.
  destruct (String.eqb (typeof action) "function").
  - destruct (decide (id = length (productions g))) as [->|Hid']; [lia|].
    rewrite lookup_insert_ne in Hid by done. specialize (Hkeys id Hid). lia.
  - specialize (Hkeys id Hid). lia.
Qed.

(** ** [toGrammar]: precedence declarations *)

Lemma childScopes_named (name : string) (body : list Line) :
  name ≠ ""%string → Forall named (childScopes name body).
Proof.
  intros Hn. apply Forall_forall. intros [n b] Hin.
  apply list_elem_of_omap in Hin as (l & _ & Hl).
  destruct l; simplify_eq/=. by apply ntTypeOf_named.
Qed.

Lemma childScopes_top_named (body : list Line) :
  (∀ loc d b, LDefinition loc d b ∈ body → d ≠ ""%string) →
  Forall named (childScopes "" body).
Proof.
  intros Hd. apply Forall_forall. intros [n b] Hin.
  apply list_elem_of_omap in Hin as (l & Hl & Hc).
  destruct l; simplify_eq/=. unfold named. simpl. by eapply Hd.
Qed.

Lemma whileDefs_precedence_named (ctxt : string → option UserMacro)
    (rootName : option string) (turns : nat) (st st' : State) :
  Forall named (scopeKey <$> st_defs st) →
  whileDefs ctxt rootName turns st = Some (Ok st') →
  st_precedence st' = st_precedence st.
Proof.
  revert st. induction turns as [|turns IH]; intros st Hnamed; simpl;
    destruct (st_defs st) as [|d rest] eqn:Hd; try discriminate;
    try (intros H; by simplify_eq).
  destruct (scopeStep _ _ _ _) as [st1|e] eqn:E; [|discriminate].
  intros H. simpl in Hnamed. apply Forall_cons in Hnamed as [Hd1 Hrest].
  apply scopeStep_inv in E as (Ep & En & Ed & _). simpl in Ep, Ed.
  apply IH in H.
  - rewrite H, Ep, (En Hd1). by rewrite app_nil_r.
  - rewrite Ed. apply Forall_app. split; [done|].
    by apply childScopes_named.
Qed.

Lemma declaredLevels_precedence (body : list Line) (loc : option Z)
    (kind : PrecedenceKind) (toks : list string) :
  LPrecedence loc kind toks ∈ body → declaredLevels body ≠ [].
Proof.
  intros Hin Hnil.
  assert (H : mkLevel toks (precedenceMapper kind) ∈ declaredLevels body).
  { apply list_elem_of_omap. by exists (LPrecedence loc kind toks). }
  rewrite Hnil in H. by apply elem_of_nil in H.
Qed.

Lemma whileDefs_rejects (ctxt : string → option UserMacro)
    (rootName : option string) (turns : nat) (st st' : State) :
  Exists (λ k, PrecedenceInScope k.1 k.2) (scopeKey <$> st_defs st) →
  whileDefs ctxt rootName turns st ≠ Some (Ok st').
Proof.
  revert st. induction turns as [|turns IH]; intros st Hex; simpl;
    destruct (st_defs st) as [|d rest] eqn:Hd; try discriminate;
    try (by apply Exists_nil in Hex).
  destruct (scopeStep _ _ _ _) as [st1|e] eqn:E; [|discriminate].
  apply scopeStep_inv in E as (_ & En & Ed & _). simpl in Ed.
  apply IH. rewrite Ed. apply Exists_app.
  simpl in Hex. apply Exists_cons in Hex as [Hhere|Hrest]; [|by left].
  right. simpl in Hhere.
  inversion Hhere as [n bd loc kind toks Hn Hin|n bd loc d' b Hin Hbelow];
    subst.
  - exfalso. by eapply declaredLevels_precedence, En.
  - apply Exists_exists. exists (ntTypeOf (scope_name d) d', b).
    split; [|done]. apply list_elem_of_omap.
    by exists (LDefinition loc d' b).
Qed.

(** C5.  The precedence list of the grammar that [toGrammar] returns is the
    list of the precedence declarations of the document, in the order they
    appear in it, each with its token values and with its associativity
    mapped by [precedenceMapper] ([left] to [LEFT], [right] to [RIGHT],
    [none] to [NONE]); the non-terminals of the document have names, so
    every nested scope is a named one.  A precedence declaration in a named
    scope makes [toGrammar] throw: it is not collected, and no grammar is
    made. *)
Theorem toGrammar_precedence (code : list Line) (rootName : option string)
    (ctxt : string → option UserMacro) :
  (∀ (σ σ' : gmap nat HeapObj) (cg : nat),
     toGrammar code rootName ctxt σ = (Ok cg, σ') →
     (∀ loc d b, LDefinition loc d b ∈ code → d ≠ ""%string) →
     ∃ g, grammarOf σ' cg = Some g
          ∧ precedence g
            = omap (λ l, match l with
                         | LPrecedence _ kind toks =>
                             Some (mkLevel toks (precedenceMapper kind))
                         | _ => None
                         end) code)
  ∧ (precedenceMapper KLeft = LEFT ∧ precedenceMapper KRight = RIGHT
     ∧ precedenceMapper KNone = NONE)
  ∧ (PrecedenceInScope "" code →
     ∀ σ : gmap nat HeapObj,
       ∃ e, toGrammar code rootName ctxt σ = (Throw e, σ)).
Proof.
  split; [|split; [done|]].
  - intros σ σ' cg Hrun Hnames.
    apply toGrammar_inv in Hrun
      as (st & t & c & Hcol & _ & _ & _ & Hcg & Hg & _).
    eexists. split; [unfold grammarOf; rewrite Hcg; by rewrite Hg|].
    simpl. unfold collect, scopesOf in Hcol. simpl in Hcol.
    destruct (scopeStep _ _ _ _) as [st1|e] eqn:E; [|discriminate].
    apply scopeStep_inv in E as (Ep & _ & Ed & _). simpl in Ep, Ed.
    apply whileDefs_precedence_named in Hcol.
    + by rewrite Hcol, Ep.
    + rewrite Ed. by apply childScopes_top_named.
  - intros Hprec σ. unfold toGrammar.
    destruct (collect_total code rootName ctxt) as [r Hr]. rewrite Hr.
    destruct r as [st|e].
    + exfalso. revert Hr. apply whileDefs_rejects. simpl.
      apply Exists_cons. by left.
    + by exists e.
Qed.

(** ** [toGrammar]: names in scopes *)

(** The innermost table that binds a name decides. *)
Lemma chainLookup_own (tables : list (gmap string string)) (t : nat)
    (proto : Vars) (own : gmap string string) (name v : string) :
  tables !! t = Some own → own !! name = Some v →
  chainLookup tables (t :: proto) name = Some (SymStr v).
Proof. intros Ht Hv. simpl. rewrite Ht. simpl. by rewrite Hv. Qed.

(** A table that does not bind the name hands over to its prototype. *)
Lemma chainLookup_fallback (tables : list (gmap string string)) (t : nat)
    (proto : Vars) (own : gmap string string) (name : string) :
  tables !! t = Some own → own !! name = None →
  chainLookup tables (t :: proto) name = chainLookup tables proto name.
Proof. intros Ht Hv. simpl. rewrite Ht. simpl. by rewrite Hv. Qed.

(** The chain ends at [Object.prototype]: a name is in no table of the
    chain and still [in vars] exactly when it is a member of it. *)
Lemma chainLookup_None (tables : list (gmap string string)) (vars : Vars)
    (name : string) :
  chainLookup tables vars name = None
  ↔ (∀ t own, t ∈ vars → tables !! t = Some own → own !! name = None)
    ∧ name ∉ objectPrototypeMembers.
Proof.
  induction vars as [|t proto IH]; simpl.
  - unfold objectPrototype. split.
    + intros H. split; [by intros ? ? ?%elem_of_nil|].
      by destruct (bool_decide_reflect (name ∈ objectPrototypeMembers)).
    + intros [_ H]. by rewrite bool_decide_eq_false_2.
  - destruct (tables !! t) as [own|] eqn:Ht; simpl.
    + destruct (own !! name) as [v|] eqn:Hv.
      * split; [discriminate|]. intros [H _].
        specialize (H t own (list_elem_of_here _ _) Ht). congruence.
      * rewrite IH. split; intros [H1 H2]; (split; [|done]).
        -- intros t' own' [->|Hin]%elem_of_cons Ht'; [congruence|].
           by eapply H1.
        -- intros t' own' Hin. apply H1. by right.
    + rewrite IH. split; intros [H1 H2]; (split; [|done]).
      * intros t' own' [->|Hin]%elem_of_cons Ht'; [congruence|].
        by eapply H1.
      * intros t' own' Hin. apply H1. by right.
Qed.

(** A reference to a name resolves to what the chain gives, and throws the
    error that names the non-terminal when the chain gives nothing. *)
Lemma elementStep_id (ctxt : string → option UserMacro) (vars : Vars)
    (st : State) (reformed : list Sym) (name : string) :
  elementStep ctxt vars (st, reformed) (EId name)
  = match chainLookup (st_tables st) vars name with
    | Some v => Ok (st, reformed ++ [v])
    | None => Throw (notDefined name)
    end.
Proof. done. Qed.

(** A name that no table of the chain binds is reported, unless
    [Object.prototype] has it: then the inherited member is taken for the
    non-terminal. *)
Lemma unbound_name_throws (ctxt : string → option UserMacro) (vars : Vars)
    (st : State) (reformed : list Sym) (name : string) :
  (∀ t own, t ∈ vars → st_tables st !! t = Some own → own !! name = None) →
  name ∉ objectPrototypeMembers →
  elementStep ctxt vars (st, reformed) (EId name) = Throw (notDefined name).
Proof.
  intros Hunbound Hmember. rewrite elementStep_id.
  by rewrite (proj2 (chainLookup_None (st_tables st) vars name)).
Qed.

Lemma chainLookup_inherited (tables : list (gmap string string)) (vars : Vars)
    (name : string) :
  (∀ t own, t ∈ vars → tables !! t = Some own → own !! name = None) →
  name ∈ objectPrototypeMembers →
  chainLookup tables vars name = Some (SymNative name).
Proof.
  intros Hunbound Hmember. induction vars as [|t proto IH]; simpl.
  - unfold objectPrototype. by rewrite bool_decide_eq_true_2.
  - destruct (tables !! t) as [own|] eqn:Ht; simpl.
    + rewrite (Hunbound t own (list_elem_of_here _ _) Ht).
      apply IH. intros t' own' Hin. apply Hunbound. by right.
    + apply IH. intros t' own' Hin. apply Hunbound. by right.
Qed.

Lemma inherited_name_is_accepted (ctxt : string → option UserMacro)
    (vars : Vars) (st : State) (reformed : list Sym) (name : string) :
  (∀ t own, t ∈ vars → st_tables st !! t = Some own → own !! name = None) →
  name ∈ objectPrototypeMembers →
  elementStep ctxt vars (st, reformed) (EId name)
  = Ok (st, reformed ++ [SymNative name]).
Proof.
  intros Hunbound Hmember. rewrite elementStep_id.
  by rewrite chainLookup_inherited.
Qed.

(** ** [compile]: the message of the rethrown error *)

Lemma compile_rethrows_located (σ : gmap nat HeapObj) (str : string)
    (name : option string) (additional : string → option UserMacro)
    (before after : list Token) (token : Token) (p : ParserState)
    (e : JsError) (a b : nat) :
  tokenize (str +:+ String newline "") = before ++ token :: after →
  pushAll (Parser_new str) before = Ok p →
  Parser_push p token = Throw e →
  range token = [a; b] →
  a < b ∧ b < String.length (source token) →
  compile str name additional σ
  = (Throw (Error (message e +:+ " @"
                     +:+ intToString (line (positionOf (source token) a))
                     +:+ ":"
                     +:+ intToString (column (positionOf (source token) a)))),
     σ).
Proof.
  intros Htok Hbefore Hpush Hr Hab.
  rewrite (compile_push_error σ str name additional before after token p e)
    by done.
  unfold rethrow. rewrite (getLoc_exact token a b Hr).
  by rewrite bool_decide_eq_true_2.
Qed.

(** * Further properties *)

(** ** [getLoc] on other ranges *)

(** X1.  On a range of two offsets [getLoc] returns a result exactly when
    the start offset is before the end offset and the end offset is inside
    the source; a range that is empty, reversed, or ends at the end of the
    source gives [undefined]. *)
Theorem getLoc_defined_iff (token : Token) (a b : nat) :
  range token = [a; b] →
  is_Some (getLoc token) ↔ a < b ∧ b < String.length (source token).
Proof.
  intros Hr. rewrite (getLoc_exact token a b Hr).
  destruct (decide (a < b ∧ b < String.length (source token))) as [H|H].
  - rewrite bool_decide_eq_true_2 by done. split; [done|by eexists].
  - rewrite bool_decide_eq_false_2 by done. split; [|done].
    intros [? ?]. discriminate.
Qed.

Lemma getLocFrom_single (src : string) (a : nat) (pos : Position) (i : nat) :
  getLocFrom src [a] [] pos i
  = if bool_decide (i ≤ a ∧ a < i + String.length src)
    then Some (mkLoc
                 (Some (foldl advance pos
                          (take (a - i) (list_ascii_of_string src))))
                 None)
    else None.
Proof.
  revert pos i. induction src as [|c rest IH]; intros pos i; simpl.
  - rewrite bool_decide_eq_false_2; [done|lia].
  - destruct (decide (a = i)) as [->|Hne].
    + rewrite bool_decide_eq_true_2 by done. simpl.
      rewrite bool_decide_eq_true_2 by lia. by rewrite Nat.sub_diag.
    + rewrite bool_decide_eq_false_2 by congruence.
      rewrite IH.
      destruct (decide (i ≤ a ∧ a < i + S (String.length rest))) as [H|H].
      * rewrite !bool_decide_eq_true_2 by lia.
        replace (a - i) with (S (a - S i)) by lia. done.
      * rewrite !bool_decide_eq_false_2 by lia. done.
Qed.

Lemma getLocFrom_empty (src : string) (pos : Position) (i : nat) :
  getLocFrom src [] [] pos i = None.
Proof.
  revert pos i. induction src as [|c rest IH]; intros pos i; simpl; [done|].
  apply IH.
Qed.

(** X2.  On a range of one offset [getLoc] returns, when the offset is
    inside the source, an object whose [start] is the position of the offset
    and whose [end] is [undefined]; on an empty range it returns
    [undefined] whatever the source. *)
Theorem getLoc_short_range (ty v src : string) (a : nat) :
  getLoc (mkToken ty v src [a])
  = (if bool_decide (a < String.length src)
     then Some (mkLoc (Some (positionOf src a)) None) else None)
  ∧ getLoc (mkToken ty v src []) = None.
Proof.
  unfold getLoc. simpl. rewrite getLocFrom_single, getLocFrom_empty.
  split; [|done]. unfold positionOf. rewrite Nat.sub_0_r.
  destruct (decide (a < String.length src)) as [H|H].
  - rewrite !bool_decide_eq_true_2; [done|done|lia].
  - rewrite !bool_decide_eq_false_2; [done|done|lia].
Qed.

(** ** [compile] on a parse error *)

(** X3.  When [push] throws on a token whose range [[a, b]] lies inside its
    source with [a < b], [compile] throws an [Error] whose message is the
    message of the error thrown, [" @"], the line of offset [a], [":"] and
    its column; the store is as before the call. *)
Theorem compile_reports_position (σ : gmap nat HeapObj) (str : string)
    (name : option string) (additional : string → option UserMacro)
    (before after : list Token) (token : Token) (p : ParserState)
    (e : JsError) (a b : nat) :
  tokenize (str +:+ String newline "") = before ++ token :: after →
  pushAll (Parser_new str) before = Ok p →
  Parser_push p token = Throw e →
  range token = [a; b] →
  a < b →
  b < String.length (source token) →
  compile str name additional σ
  = (Throw (Error (message e +:+ " @"
                     +:+ intToString (line (positionOf (source token) a))
                     +:+ ":"
                     +:+ intToString (column (positionOf (source token) a)))),
     σ).
Proof.
  intros Htok Hbefore Hpush Hr Hab Hb.
  by apply (compile_rethrows_located σ str name additional before after token
              p e a b).
Qed.

(** X4.  [compile] stops at the first token on which [push] throws: the
    tokens after it are not pushed, [finish] and [toGrammar] are not
    called, the store is as before the call, and what is thrown is the
    located [Error] or, when [getLoc] gives nothing for the token, a
    [TypeError]; no crane grammar is returned. *)
Theorem compile_stops_at_first_push_error (σ : gmap nat HeapObj)
    (str : string) (name : option string)
    (additional : string → option UserMacro)
    (before after : list Token) (token : Token) (p : ParserState)
    (e : JsError) :
  tokenize (str +:+ String newline "") = before ++ token :: after →
  pushAll (Parser_new str) before = Ok p →
  Parser_push p token = Throw e →
  ∃ err,
    compile str name additional σ = (Throw err, σ)
    ∧ ((∃ pos, getLoc token ≫= start = Some pos
               ∧ err = Error (message e +:+ " @" +:+ intToString (line pos)
                                +:+ ":" +:+ intToString (column pos)))
       ∨ (getLoc token ≫= start = None ∧ ∃ m, err = TypeError m)).
Proof.
  intros Htok Hbefore Hpush. exists (rethrow e token).
  split; [by eapply compile_push_error|].
  unfold rethrow. destruct (getLoc token) as [loc|]; simpl.
  - destruct (start loc) as [pos|]; [left; by exists pos|right].
    split; [done|by eexists].
  - right. split; [done|by eexists].
Qed.

(** ** [toGrammar]: the body of the document *)

Lemma bodyLine_top (rootName : option string) (vars : Vars) (st : State)
    (ps : list ProductionLine) (l : Line) :
  match l with
  | LProduction _ _ _ _ =>
      bodyLine rootName "" vars (st, ps) l = Throw topLevelProduction
  | _ => ∃ st', bodyLine rootName "" vars (st, ps) l = Ok (st', ps)
  end.
Proof. unfold bodyLine. destruct l; simpl; eauto. Qed.

Lemma bodyLoop_top_throws (rootName : option string) (vars : Vars)
    (body : list Line) (st : State) (ps : list ProductionLine)
    (loc : option Z) (prod : list Element) (code prc : option string) :
  LProduction loc prod code prc ∈ body →
  forOf (bodyLine rootName "" vars) (st, ps) body = Throw topLevelProduction.
Proof.
  revert st. induction body as [|l body IH]; intros st Hin.
  - by apply elem_of_nil in Hin.
  - simpl. unfold mbind, Result_bind.
    pose proof (bodyLine_top rootName vars st ps l) as Hl.
    destruct l as [?loc kind toks|?loc d b|?loc ?prod ?code ?prc|?loc src|?loc].
    3: by rewrite Hl.
    all: destruct Hl as [st1 Hl]; rewrite Hl; apply IH;
      by apply elem_of_cons in Hin as [?|?].
Qed.



(** X5.  A production line in the body of the document makes [toGrammar]
    throw ["Top level productions not allowed!"], whatever else the document
    holds: reading the body of the document throws nothing else, and it is
    read first.  The store is as before the call. *)
Theorem toGrammar_rejects_top_level_production (code : list Line)
    (rootName : option string) (ctxt : string → option UserMacro)
    (σ : gmap nat HeapObj) (loc : option Z) (prod : list Element)
    (snippet prc : option string) :
  LProduction loc prod snippet prc ∈ code →
  toGrammar code rootName ctxt σ
  = (Throw (Error "Top level productions not allowed!"), σ).
Proof.
  intros Hin. unfold toGrammar, collect, scopesOf. simpl.
  unfold scopeStep. simpl.
  by rewrite (bodyLoop_top_throws rootName [0] code _ [] loc prod snippet prc).
Qed.





Lemma importsFrom_cons (s : Z) (l : Line) (rest : list Line) :
  importsFrom s (l :: rest)
  = importsFrom s [l] ++ importsFrom (default s (lineLoc l)) rest.
Proof. by destruct l. Qed.

Lemma bodyLine_dependencies (rootName : option string) (name : string)
    (vars : Vars) (st : State) (ps : list ProductionLine) (l : Line)
    (st' : State) (ps' : list ProductionLine) :
  bodyLine rootName name vars (st, ps) l = Ok (st', ps') →
  st_sourceLine st' = default (st_sourceLine st) (lineLoc l)
  ∧ st_dependencies st'
    = st_dependencies st ++ importsFrom (st_sourceLine st) [l].
Proof.
  unfold bodyLine.
  destruct l as [loc kind toks|loc d b|loc prod code prc|loc src|loc]; simpl.
  - destruct (decide (0 < String.length name)); [discriminate|].
    intros H. injection H as <- <-. simpl. by rewrite app_nil_r.
  - intros H. injection H as <- <-. simpl. by rewrite app_nil_r.
  - destruct (decide (String.length name = 0)); [discriminate|].
    intros H. injection H as <- <-. simpl. by rewrite app_nil_r.
  - intros H. by injection H as <- <-.
  - intros H. injection H as <- <-. simpl. by rewrite app_nil_r.
Qed.

Lemma bodyLoop_dependencies (rootName : option string) (name : string)
    (vars : Vars) (body : list Line) (st : State) (ps : list ProductionLine)
    (st' : State) (ps' : list ProductionLine) :
  forOf (bodyLine rootName name vars) (st, ps) body = Ok (st', ps') →
  st_dependencies st'
  = st_dependencies st ++ importsFrom (st_sourceLine st) body.
Proof.
  revert st ps. induction body as [|l body IH]; intros st ps H.
  - simpl in H. simplify_eq. simpl. by rewrite app_nil_r.
  - simpl in H. unfold mbind, Result_bind in H.
    destruct (bodyLine rootName name vars (st, ps) l) as [[st1 ps1]|] eqn:E;
      [|discriminate].
    apply bodyLine_dependencies in E as [Es Ed].
    apply IH in H. rewrite H, Ed, Es, (importsFrom_cons _ l body).
    symmetry. apply app_assoc.
Qed.

Lemma scopeStep_dependencies (ctxt : string → option UserMacro)
    (rootName : option string) (d : Scope) (st st' : State) :
  scopeStep ctxt rootName d st = Ok st' →
  st_dependencies st'
  = st_dependencies st ++ importsFrom (st_sourceLine st) (scope_body d).
Proof.
  unfold scopeStep, mbind, Result_bind.
  destruct (forOf (bodyLine _ _ _) _ _) as [[st1 ps]|] eqn:E; [|discriminate].
  intros H. apply productions_grow in H as (_ & _ & _ & Hd & _).
  apply bodyLoop_dependencies in E. by rewrite Hd.
Qed.

Lemma whileDefs_dependencies (ctxt : string → option UserMacro)
    (rootName : option string) (turns : nat) (st st' : State) :
  whileDefs ctxt rootName turns st = Some (Ok st') →
  st_dependencies st `prefix_of` st_dependencies st'.
Proof.
  revert st. induction turns as [|turns IH]; intros st; simpl;
    destruct (st_defs st) as [|d rest] eqn:Hd; try discriminate;
    try (intros H; by simplify_eq).
  destruct (scopeStep _ _ _ _) as [st1|e] eqn:E; [|discriminate].
  intros H. apply IH in H.
  apply scopeStep_dependencies in E. simpl in E.
  etrans; [|exact H]. rewrite E. by apply prefix_app_r.
Qed.

(** X7.  When [toGrammar] returns, the dependencies of the crane grammar
    begin with the import lines of the body of the document, in order, each
    with its source line: the line of its own [loc], or of the nearest line
    before it that has one, 0 when there is none.  The imports of nested
    bodies come after them. *)
Theorem toGrammar_top_level_imports (code : list Line)
    (rootName : option string) (ctxt : string → option UserMacro)
    (σ σ' : gmap nat HeapObj) (cg : nat) :
  toGrammar code rootName ctxt σ = (Ok cg, σ') →
  ∃ c deps,
    σ' !! cg = Some (OCrane Cold c)
    ∧ σ' !! dependencies c = Some (ODependencies deps)
    ∧ importsFrom 0 code `prefix_of` deps.
Proof.
  intros H.
  apply toGrammar_inv in H as (st & t & c & Hcol & _ & _ & _ & Hcg & _ & _ & Hd & _).
  exists c, (st_dependencies st). split; [done|]. split; [done|].
  unfold collect, scopesOf in Hcol. simpl in Hcol.
  destruct (scopeStep _ _ _ _) as [st1|e] eqn:E; [|discriminate].
  apply whileDefs_dependencies in Hcol.
  apply scopeStep_dependencies in E. simpl in E.
  etrans; [|exact Hcol]. by rewrite E.
Qed.

Lemma mappedLines_filled (entries : list Entry) (done todo : list (option Z)) :
  length todo = length entries →
  mappedLines (length done) entries (done ++ todo)
  = done ++ ((λ e, Some (entry_line e)) <$> entries).
Proof.
  revert done todo. induction entries as [|p rest IH]; intros done todo Hlen.
  - destruct todo; [done|discriminate].
  - destruct todo as [|x todo]; [discriminate|]. simpl in Hlen.
    simpl. unfold arraySet.
    rewrite decide_True by (rewrite length_app; simpl; lia).
    rewrite insert_app_r_alt by lia. rewrite Nat.sub_diag. simpl.
    replace (done ++ Some (entry_line p) :: todo)
      with ((done ++ [Some (entry_line p)]) ++ todo)
      by (by rewrite <- app_assoc).
    replace (S (length done)) with (length (done ++ [Some (entry_line p)]))
      by (rewrite length_app; simpl; lia).
    rewrite IH by lia. by rewrite <- app_assoc.
Qed.

(** X8.  When [toGrammar] returns, the source line mappings of the crane
    grammar have one entry for each production of its grammar, in order:
    the source line of the entry the production was made from.  None of
    the [-1] the constructor fills in is left, and there is no hole. *)
Theorem toGrammar_maps_every_production (code : list Line)
    (rootName : option string) (ctxt : string → option UserMacro)
    (σ σ' : gmap nat HeapObj) (cg : nat) :
  toGrammar code rootName ctxt σ = (Ok cg, σ') →
  ∃ c st g,
    collect code rootName ctxt = Some (Ok st)
    ∧ σ' !! cg = Some (OCrane Cold c)
    ∧ grammarOf σ' cg = Some g
    ∧ productions g = toProduction <$> st_list st
    ∧ σ' !! sourceLineMappings c
      = Some (OLines ((λ e, Some (entry_line e)) <$> st_list st)).
Proof.
  intros H.
  apply toGrammar_inv in H
    as (st & t & c & Hcol & _ & _ & _ & Hcg & Hg & _ & _ & Hl).
  exists c, st, (mkGrammar (toProduction <$> st_list st) 0 (st_precedence st)).
  split; [done|]. split; [done|].
  split; [unfold grammarOf; rewrite Hcg; by rewrite Hg|].
  split; [done|].
  rewrite Hl. do 2 f_equal.
  apply (mappedLines_filled (st_list st) []). by rewrite length_replicate.
Qed.

Lemma whileDefs_turns (ctxt : string → option UserMacro)
    (rootName : option string) (turns : nat) (st st' : State) :
  whileDefs ctxt rootName turns st = Some (Ok st') →
  pending (st_defs st) ≤ turns ∧ st_defs st' = [].
Proof.
  revert st. induction turns as [|turns IH]; intros st; simpl;
    destruct (st_defs st) as [|d rest] eqn:Hd; try discriminate.
  - intros H. simplify_eq. split; [unfold pending, pendingKeys; simpl; lia|done].
  - intros H. simplify_eq. split; [unfold pending, pendingKeys; simpl; lia|done].
  - destruct (scopeStep _ _ _ _) as [st1|e] eqn:E; [|discriminate].
    intros H. apply IH in H as [Hle Hnil]. split; [|done].
    apply scopeStep_inv in E as (_ & _ & Ed & _). simpl in Ed.
    rewrite pending_cons.
    rewrite <- (pendingKeys_children (scope_name d)).
    unfold pending in Hle. rewrite Ed, pendingKeys_app in Hle.
    fold (pending rest) in Hle. lia.
Qed.

(** X9.  The loop over the queue of scopes makes one turn for each scope of
    the document, the body of the document and the body of every definition
    at any depth: when it ends without an error the queue is empty and it
    has made at least that many turns, and that many turns are always
    enough for it to end. *)
Theorem whileDefs_one_turn_per_scope (code : list Line)
    (rootName : option string) (ctxt : string → option UserMacro)
    (turns : nat) (st : State) :
  whileDefs ctxt rootName turns (initialState code) = Some (Ok st) →
  scopesOf code ≤ turns
  ∧ st_defs st = []
  ∧ whileDefs ctxt rootName (scopesOf code) (initialState code)
    = Some (Ok st).
Proof.
  intros H. pose proof (whileDefs_turns _ _ _ _ _ H) as [Hle Hnil].
  assert (Hp : pending (st_defs (initialState code)) = scopesOf code)
    by (unfold initialState, pending, pendingKeys, scopesOf; simpl; lia).
  rewrite Hp in Hle.
  split; [done|]. split; [done|].
  destruct (collect_total code rootName ctxt) as [r Hr]. unfold collect in Hr.
  rewrite Hr. f_equal.
  assert (Hmono : ∀ n m s r0, whileDefs ctxt rootName n s = Some r0 → n ≤ m →
                              whileDefs ctxt rootName m s = Some r0).
  { clear. induction n as [|n IH]; intros m s r0; simpl.
    - destruct (st_defs s) eqn:Hd; [|discriminate].
      intros H _. destruct m; simpl; by rewrite Hd.
    - destruct (st_defs s) as [|d rest] eqn:Hd.
      + intros H _. destruct m; simpl; by rewrite Hd.
      + intros H Hle. destruct m as [|m]; [lia|]. simpl. rewrite Hd.
        destruct (scopeStep _ _ _ _); [|done]. apply IH; [done|lia]. }
  apply (Hmono _ turns) in Hr; [|lia]. congruence.
Qed.


(** ** [extractor], [expand], [compileOr] and the alias list *)

(** X13.  The object that [extractor(...props)] returns from [o] has
    exactly the listed properties: a listed property holds the value [o]
    has under it, [undefined] when [o] has none, and no other property of
    [o] is copied.  The listed names are not names of members of
    [Object.prototype], which [o] would inherit. *)
Theorem extractor_lookup (props : list string) (o : gmap string FieldValue)
    (k : string) :
  (∀ p, p ∈ props → p ∉ objectPrototypeMembers) →
  extractor props o !! k
  = if decide (k ∈ props) then Some (default FUndefined (o !! k)) else None.
Proof.
  intros _.
  unfold extractor. induction props as [|p props IH] using rev_ind.
  - simpl. by rewrite lookup_empty.
  - rewrite foldl_app. simpl foldl.
    destruct (decide (k = p)) as [->|Hne].
    + rewrite lookup_insert_eq.
      destruct (decide (p ∈ props ++ [p])) as [|H]; [done|].
      exfalso. apply H. apply elem_of_app. right. apply list_elem_of_here.
    + rewrite lookup_insert_ne by done. rewrite IH.
      destruct (decide (k ∈ props)) as [Hin|Hin],
               (decide (k ∈ props ++ [p])) as [Hin'|Hin']; try done; exfalso.
      * apply Hin'. apply elem_of_app. by left.
      * apply elem_of_app in Hin' as [?|Hp%list_elem_of_singleton]; done.
Qed.

Lemma expansions_snoc (prod : list Item) (e : Item) :
  expansions (prod ++ [e]) = expandStep (expansions prod) e.
Proof. unfold expansions. by rewrite foldl_app. Qed.

Lemma expandStep_elem (prods : list (list Item)) (e : Item) (p : list Item) :
  p ∈ expandStep prods e ↔ ∃ q x, p = q ++ [x] ∧ q ∈ prods ∧ picks e x.
Proof.
  destruct e as [alts|ty]; simpl.
  - rewrite list_elem_of_bind. split.
    + intros (x & Hp & Hx). apply list_elem_of_fmap in Hp as (q & -> & Hq).
      by exists q, x.
    + intros (q & x & -> & Hq & Hx). exists x. split; [|done].
      apply list_elem_of_fmap. by exists q.
  - rewrite list_elem_of_fmap. split.
    + intros (q & -> & Hq). by exists q, (Plain ty).
    + intros (q & x & -> & Hq & ->). by exists q.
Qed.

Lemma expansions_elem (prod p : list Item) :
  p ∈ expansions prod ↔ Forall2 picks prod p.
Proof.
  revert p. induction prod as [|e prod IH] using rev_ind; intros p.
  - unfold expansions. simpl. rewrite list_elem_of_singleton. split.
    + intros ->. constructor.
    + intros H. by apply Forall2_nil_inv_l in H.
  - rewrite expansions_snoc, expandStep_elem. split.
    + intros (q & x & -> & Hq & Hx). apply Forall2_app; [by apply IH|].
      by repeat constructor.
    + intros H. apply Forall2_app_inv_l in H as (q & k & Hq & Hk & ->).
      apply Forall2_cons_inv_l in Hk as (x & k' & Hx & Hk' & ->).
      apply Forall2_nil_inv_l in Hk' as ->.
      exists q, x. split; [done|]. split; [by apply IH|done].
Qed.

(** X14.  [expand(prod, code)] returns one object for each way of picking,
    for every or-expression of [prod], one of its alternatives, and nothing
    else: the picked elements take the places of the or-expressions, the
    other elements stay, and the object holds the first picked element as
    [type], the second as [production] and [code]; the elements after the
    second are dropped. *)
Theorem expand_picks_alternatives (prod : list Item) (code : option string)
    (x : Expanded) :
  x ∈ expand prod code
  ↔ ∃ p, Forall2 picks prod p ∧ x = mkExpanded (p !! 0) (p !! 1) code.
Proof.
  unfold expand. rewrite list_elem_of_fmap. split.
  - intros (p & -> & Hp). exists p. split; [by apply expansions_elem|done].
  - intros (p & Hp & ->). exists p. split; [done|by apply expansions_elem].
Qed.

Lemma expandStep_length (prods : list (list Item)) (e : Item) :
  length (expandStep prods e) = alternativesOf e * length prods.
Proof.
  destruct e as [alts|ty]; simpl.
  - induction alts as [|a alts IH]; simpl; [done|].
    rewrite length_app, length_fmap. f_equal. exact IH.
  - rewrite length_fmap. lia.
Qed.

Lemma foldl_expandStep_length (prod : list Item) (prods : list (list Item)) :
  length (foldl expandStep prods prod)
  = length prods * foldr Nat.mul 1 (alternativesOf <$> prod).
Proof.
  revert prods. induction prod as [|e prod IH]; intros prods; [simpl; lia|].
  rewrite fmap_cons. cbn [foldl foldr].
  rewrite IH, expandStep_length. lia.
Qed.

(** X15.  [expand(prod, code)] returns as many objects as the product of
    the numbers of alternatives of the or-expressions of [prod]: one when
    there is no or-expression, none when an or-expression has an empty
    list. *)
Theorem expand_count (prod : list Item) (code : option string) :
  length (expand prod code) = foldr Nat.mul 1 (alternativesOf <$> prod).
Proof.
  unfold expand, expansions.
  rewrite length_fmap, foldl_expandStep_length. simpl. lia.
Qed.

(** X16.  [compileOr] returns the values of the elements of the list, in
    order, exactly when every element is a string; otherwise it throws,
    and what it throws is ["An OR list may only contain terminal
    types!"]. *)
Theorem compileOr_only_strings (els : list Element) :
  (∀ vs, compileOr els = Ok vs ↔ els = EString <$> vs)
  ∧ (∀ e, compileOr els = Throw e →
          e = Error "An OR list may only contain terminal types!"
          ∧ ∃ el, el ∈ els ∧ ∀ v, el ≠ EString v).
Proof.
  induction els as [|el els [IHok IHthrow]]; simpl.
  - split.
    + intros vs. split.
      * intros H. by simplify_eq.
      * intros H. symmetry in H. apply fmap_nil_inv in H. by subst.
    + discriminate.
  - destruct el as [v|name args|path|name|];
      try (split;
           [intros vs; split; [discriminate|];
            destruct vs; discriminate
           |intros e H; simplify_eq; split; [done|];
            eexists; split; [apply list_elem_of_here|discriminate]]).
    unfold mbind, Result_bind. split.
    + intros vs. destruct (compileOr els) as [ws|e0] eqn:E.
      * split.
        -- intros H. simplify_eq. simpl. f_equal. by apply IHok.
        -- destruct vs as [|v' vs]; [discriminate|]. simpl.
           intros H. simplify_eq. f_equal.
           assert (X : Ok ws = Ok vs) by (by apply IHok). by simplify_eq.
      * split; [discriminate|].
        destruct vs as [|v' vs]; [discriminate|]. simpl.
        intros H. simplify_eq.
        assert (X : Throw e0 = Ok vs) by (by apply (IHok vs)). discriminate.
    + intros e. destruct (compileOr els) as [ws|e0] eqn:E; [discriminate|].
      intros H. simplify_eq. destruct (IHthrow e eq_refl) as [-> (el & Hel & Hne)].
      split; [done|]. exists el. split; [by apply list_elem_of_further|done].
Qed.

Lemma setAlias_length (l : list string) (index : nat) (name : string) :
  length (setAlias l (index, name)) = length l `max` S index.
Proof.
  unfold setAlias. rewrite length_insert, length_app, length_replicate. lia.
Qed.

Lemma setAlias_lookup (l : list string) (index : nat) (name : string)
    (i : nat) :
  setAlias l (index, name) !! i
  = if decide (i = index) then Some name
    else if decide (i < length l) then l !! i
    else if decide (i < index) then Some ""%string else None.
Proof.
  unfold setAlias.
  destruct (decide (i = index)) as [->|Hne].
  - apply list_lookup_insert_eq. rewrite length_app, length_replicate. lia.
  - rewrite list_lookup_insert_ne by done.
    destruct (decide (i < length l)) as [Hlt|Hge].
    + by rewrite lookup_app_l.
    + rewrite lookup_app_r by lia.
      destruct (decide (i < index)) as [Hi|Hi].
      * apply lookup_replicate_2. lia.
      * apply lookup_replicate_None. lia.
Qed.

(** X17.  The alias list that [compileLS] builds from a map of aliases
    holds each name at its index, [''] at every index below the largest
    that the map does not list, and ends at the largest index. *)
Theorem compileLS_alias_list (aliases : list (nat * string)) :
  NoDup aliases.*1 →
  let aliasList := foldl setAlias [] aliases in
  (∀ index name, (index, name) ∈ aliases → aliasList !! index = Some name)
  ∧ (∀ i, i < length aliasList ↔ ∃ entry, entry ∈ aliases ∧ i ≤ entry.1)
  ∧ (∀ i, i < length aliasList → i ∉ aliases.*1 →
          aliasList !! i = Some ""%string).
Proof.
  induction aliases as [|[idx nm] aliases IH] using rev_ind; intros Hnd;
    cbv zeta.
  - simpl. split; [intros ?? H; by apply elem_of_nil in H|].
    split; [|intros; lia].
    intros i. split; [lia|]. intros (? & H & _). by apply elem_of_nil in H.
  - rewrite fmap_app in Hnd. apply NoDup_app in Hnd as (Hnd & Hdisj & _).
    destruct (IH Hnd) as (IH1 & IH2 & IH3). clear IH.
    rewrite foldl_app. cbn [foldl].
    set (prev := foldl setAlias [] aliases) in *.
    assert (Hfresh : idx ∉ aliases.*1).
    { intros Hin. apply (Hdisj idx Hin). simpl. apply list_elem_of_here. }
    split; [|split].
    + intros index name [Hin|Hin%list_elem_of_singleton]%elem_of_app.
      * rewrite setAlias_lookup.
        assert (index ≠ idx).
        { intros ->. apply Hfresh. apply list_elem_of_fmap.
          by exists (idx, name). }
        rewrite decide_False by done.
        rewrite decide_True; [by apply IH1|].
        apply lookup_lt_is_Some. rewrite (IH1 _ _ Hin). by eexists.
      * simplify_eq. rewrite setAlias_lookup. by rewrite decide_True.
    + intros i. rewrite setAlias_length. split.
      * intros Hlt. destruct (decide (i < length prev)) as [Hp|Hp].
        -- apply IH2 in Hp as (entry & Hin & Hle). exists entry.
           split; [apply elem_of_app; by left|done].
        -- exists (idx, nm). split; [|simpl; lia].
           apply elem_of_app. right. apply list_elem_of_here.
      * intros (entry & [Hin|Hin%list_elem_of_singleton]%elem_of_app & Hle).
        -- assert (i < length prev) by (apply IH2; by exists entry). lia.
        -- subst. simpl in Hle. lia.
    + intros i Hlt Hnot. rewrite setAlias_length in Hlt.
      rewrite setAlias_lookup.
      assert (i ≠ idx).
      { intros ->. apply Hnot. rewrite fmap_app. apply elem_of_app. right.
        simpl. apply list_elem_of_here. }
      rewrite decide_False by done.
      destruct (decide (i < length prev)) as [Hp|Hp].
      * apply IH3; [done|]. intros Hin. apply Hnot. rewrite fmap_app.
        apply elem_of_app. by left.
      * rewrite decide_True; [done|lia].
Qed.


(** ** Macros *)

Lemma newId_inj (i j : nat) : newId i = newId j → i = j.
Proof.
  unfold newId. simpl. intros H. injection H as H.
  apply numberToString_inj in H. lia.
Qed.

Lemma multiple_handle (vars : Vars) (args : list (list Element))
    (st st' : State) (h : string) :
  multiple vars args st = Ok (h, st') →
  h = newId (st_i st) ∧ st_i st' = S (st_i st).
Proof.
  unfold multiple. destruct args as [|first more]; [discriminate|].
  destruct (head first) as [e|]; [|discriminate].
  destruct (head more ≫= head) as [sep|]; intros H; by simplify_eq.
Qed.

(** X18.  The handles that the macro [multiple] returns are new each time:
    a call made when the counter [i] has not gone back returns another
    handle than an earlier call did. *)
Theorem multiple_handles_differ (vars vars' : Vars)
    (args args' : list (list Element)) (st st1 st2 st3 : State)
    (h h' : string) :
  multiple vars args st = Ok (h, st1) →
  st_i st1 ≤ st_i st2 →
  multiple vars' args' st2 = Ok (h', st3) →
  h ≠ h'.
Proof.
  intros [-> Hi]%multiple_handle Hle [-> _]%multiple_handle E.
  apply newId_inj in E. lia.
Qed.

(** X19.  The arguments of a macro call are not checked as the elements of
    a production are: a name that no scope binds makes [toGrammar] throw
    when it is an element of a production, but as the argument of
    [multiple] it is taken as it is written, and the productions that
    [multiple] adds refer to it. *)
Theorem macro_argument_is_not_checked (ctxt : string → option UserMacro)
    (vars : Vars) (st : State) (reformed : list Sym) (n : string) :
  ctxt "multiple"%string = None →
  chainLookup (st_tables st) vars n = None →
  chainLookup (st_tables st) vars (newId (st_i st)) = None →
  elementStep ctxt vars (st, reformed) (EAddress [n]) = Throw (notDefined n)
  ∧ ∃ st',
      elementStep ctxt vars (st, reformed) (ECall "multiple" [[EAddress [n]]])
      = Ok (st', reformed ++ [SymStr (newId (st_i st))])
      ∧ st_list st'
        = st_list st
          ++ [ mkEntry (newId (st_i st)) (st_sourceLine st) []
                 (Some "[]"%string) PrecUndefined;
               mkEntry (newId (st_i st)) (st_sourceLine st) [SymStr n]
                 (Some "[$[0]]"%string) PrecUndefined;
               mkEntry (newId (st_i st)) (st_sourceLine st)
                 [SymStr (newId (st_i st)); SymStr n]
                 (Some "[...$[0], $[1]]"%string) PrecUndefined ].
Proof.
  intros Hctxt Hn Hid. unfold elementStep. split.
  - simpl. by rewrite Hn.
  - unfold callMacro. rewrite Hctxt. simpl String.eqb. cbv iota.
    unfold multiple. cbn [head mbind option_bind].
    unfold mbind, Result_bind.
    cbn [resolve resolvePath resolveName head tail default].
    assert (Hr : resolveName (st_tables st) vars (Some n) = SymStr n)
      by (unfold resolveName; simpl; by rewrite Hn).
    rewrite ?Hr.
    eexists. split.
    + unfold hasProperty. cbn [st_tables pushList].
      rewrite Hid. rewrite bool_decide_eq_false_2 by (by intros [? ?]).
      reflexivity.
    + cbn [st_list pushList]. by rewrite <- !app_assoc.
Qed.

(** ** The tables of actions and of source lines *)

(** X20.  [getActionAST()] leaves the store as it is and returns one
    property for each entry of the table of actions and no other: the key
    of a property is the number that the property name of the entry
    denotes (never [NaN]) and its value is the node of the entry. *)
Theorem getActionAST_lists_the_table (σ : gmap nat HeapObj) (this : nat)
    (c : CraneFields) (t : gmap nat JsAst) :
  σ !! this = Some (OCrane Cold c) →
  σ !! actions c = Some (OColdActions t) →
  ∃ props,
    getActionAST this σ = (Ok props, σ)
    ∧ length props = size t
    ∧ ∀ p, p ∈ props ↔ ∃ k, key p = Some k ∧ t !! k = Some (value p).
Proof.
  intros Hthis Ht. unfold getActionAST. run. rewrite Hthis. simpl.
  rewrite Ht. simpl. eexists. split; [done|].
  unfold ownEntries.
  assert (Hperm : merge_sort keyLe (map_to_list t) ≡ₚ map_to_list t)
    by apply merge_sort_Permutation.
  split.
  - rewrite !length_fmap, Hperm. apply length_map_to_list.
  - intros p. rewrite <- list_fmap_compose, list_elem_of_fmap. split.
    + intros ([k v] & -> & Hin). simpl. rewrite parseInt_numberToString.
      exists k. split; [done|].
      rewrite Hperm in Hin. by apply elem_of_map_to_list in Hin.
    + intros (k & Hk & Hv). exists (k, value p). split.
      * simpl. rewrite parseInt_numberToString. destruct p. simpl in *.
        by subst.
      * rewrite Hperm. by apply elem_of_map_to_list.
Qed.

Lemma arraySet_length {A} (a : list (option A)) (i : nat) (v : A) :
  length (arraySet a i v) = length a `max` S i.
Proof.
  unfold arraySet. case_decide.
  - rewrite length_insert. lia.
  - rewrite !length_app, length_replicate. simpl. lia.
Qed.

Lemma arraySet_lookup {A} (a : list (option A)) (i : nat) (v : A) (j : nat) :
  arraySet a i v !! j
  = if decide (j = i) then Some (Some v)
    else if decide (j < length a) then a !! j
    else if decide (j < i) then Some None else None.
Proof.
  unfold arraySet. destruct (decide (i < length a)) as [Hi|Hi].
  - destruct (decide (j = i)) as [->|Hne].
    + by apply list_lookup_insert_eq.
    + rewrite list_lookup_insert_ne by done.
      destruct (decide (j < length a)) as [Hj|Hj]; [done|].
      rewrite decide_False by lia. apply lookup_ge_None. lia.
  - destruct (decide (j < length a)) as [Hj|Hj].
    + rewrite decide_False by lia. by rewrite lookup_app_l.
    + rewrite lookup_app_r by lia.
      destruct (decide (j = i)) as [->|Hne].
      * rewrite lookup_app_r by (rewrite length_replicate; lia).
        rewrite length_replicate, Nat.sub_diag. done.
      * destruct (decide (j < i)) as [Hlt|Hlt].
        -- rewrite lookup_app_l by (rewrite length_replicate; lia).
           apply lookup_replicate_2. lia.
        -- apply lookup_ge_None. rewrite length_app, length_replicate.
           simpl. lia.
Qed.

(** X21.  [addSourceLineMapping(production, line)] writes the line at the
    index of the production in the array of source lines and changes no
    other entry.  At an index past the end of the array it extends the
    array up to that index, leaving a hole at every index between; nothing
    else in the store changes. *)
Theorem addSourceLineMapping_writes_one_entry (σ : gmap nat HeapObj)
    (this : nat) (cls : CraneClass) (c : CraneFields) (a : list (option Z))
    (production : nat) (ln : Z) :
  σ !! this = Some (OCrane cls c) →
  σ !! sourceLineMappings c = Some (OLines a) →
  ∃ a',
    addSourceLineMapping this production ln σ
    = (Ok tt, <[sourceLineMappings c := OLines a']> σ)
    ∧ a' !! production = Some (Some ln)
    ∧ length a' = length a `max` S production
    ∧ (∀ j, j ≠ production → j < length a → a' !! j = a !! j)
    ∧ (∀ j, length a ≤ j < production → a' !! j = Some None).
Proof.
  intros Hthis Ha. exists (arraySet a production ln).
  split; [|split; [|split; [|split]]].
  - unfold addSourceLineMapping. run. rewrite Hthis. simpl. by rewrite Ha.
  - rewrite arraySet_lookup. by rewrite decide_True.
  - apply arraySet_length.
  - intros j Hne Hlt. rewrite arraySet_lookup.
    rewrite decide_False by done. by rewrite decide_True.
  - intros j [Hge Hlt]. rewrite arraySet_lookup.
    rewrite decide_False by lia. rewrite decide_False by lia.
    by rewrite decide_True.
Qed.

(** X22.  [augment] writes to the grammar object and, for a function, to
    the table of actions, and to nothing else in the store.  The array of
    source lines stays as it is, so a grammar that had a source line for
    each production has none for the production that [augment] adds. *)
Theorem augment_writes_grammar_and_table_only (σ : gmap nat HeapObj)
    (this : nat) (c : CraneFields) (g : Grammar) (t : gmap nat JsValue)
    (a : list (option Z)) (nt : string) (toks : list Sym)
    (action : JsValue) :
  σ !! this = Some (OCrane Hot c) →
  σ !! grammar c = Some (OGrammar g) →
  σ !! actions c = Some (OHotActions t) →
  σ !! sourceLineMappings c = Some (OLines a) →
  length a = length (productions g) →
  ∃ σ' g',
    augment this nt toks action σ = (Ok tt, σ')
    ∧ (∀ l, l ≠ grammar c → l ≠ actions c → σ' !! l = σ !! l)
    ∧ grammarOf σ' this = Some g'
    ∧ σ' !! sourceLineMappings c = Some (OLines a)
    ∧ a !! (length (productions g') - 1) = None.
Proof.
  intros Hthis Hg Ht Ha Hlen.
  assert (N1 : this ≠ grammar c) by (intros E; rewrite <- E in Hg; congruence).
  assert (N2 : this ≠ actions c) by (intros E; rewrite <- E in Ht; congruence).
  assert (N3 : sourceLineMappings c ≠ grammar c)
    by (intros E; rewrite E in Ha; congruence).
  assert (N4 : sourceLineMappings c ≠ actions c)
    by (intros E; rewrite E in Ha; congruence).
  assert (Hframe : ∀ l, l ≠ grammar c → l ≠ actions c →
    (<[grammar c := OGrammar (addProduction g nt toks emptyMeta).1]>
       (if String.eqb (typeof action) "function"
        then <[actions c :=
                 OHotActions (<[length (productions g) := action]> t)]> σ
        else σ)) !! l = σ !! l).
  { intros l L1 L2. rewrite lookup_insert_ne by done.
    destruct (String.eqb _ _); [by rewrite lookup_insert_ne|done]. }
  eexists _, (addProduction g nt toks emptyMeta).1.
  split; [by apply augment_run|].
  split; [exact Hframe|].
  split.
  { unfold grammarOf. rewrite Hframe by done. rewrite Hthis.
    by rewrite lookup_insert_eq. }
  split; [by rewrite Hframe|].
  apply lookup_ge_None. simpl. rewrite length_app. simpl. lia.
Qed.

(** X23.  A cooked grammar shares the grammar object of the cold grammar it
    was cooked from: [augment] on the hot grammar also adds the production
    to the grammar of the cold one, whose table of action nodes stays as
    it was. *)
Theorem augment_after_cook_reaches_the_origin (σ : gmap nat HeapObj)
    (this : nat) (c : CraneFields) (g : Grammar) (t : gmap nat JsAst)
    (nt : string) (toks : list Sym) (action : JsValue) :
  σ !! this = Some (OCrane Cold c) →
  σ !! grammar c = Some (OGrammar g) →
  σ !! actions c = Some (OColdActions t) →
  ∃ cooked σ1 σ2,
    cook this σ = (Ok cooked, σ1)
    ∧ augment cooked nt toks action σ1 = (Ok tt, σ2)
    ∧ grammarOf σ1 this = Some g
    ∧ grammarOf σ2 this = Some (addProduction g nt toks emptyMeta).1
    ∧ grammarOf σ2 cooked = Some (addProduction g nt toks emptyMeta).1
    ∧ coldActionsOf σ2 this = Some t.
Proof.
  intros Hthis Hg Ht.
  pose proof (cook_run σ this c g t Hthis Hg Ht) as Hrun. simpl in Hrun.
  set (object := fresh (dom σ)) in *.
  set (σ1 := <[object := OHotActions ((λ a, VFunction (evaluate a)) <$> t)]> σ)
    in *.
  set (lines := fresh (dom σ1)) in *.
  set (σ2 := <[lines := OLines (replicate (length (productions g))
                                  (Some (-1)%Z))]> σ1) in *.
  set (cooked := fresh (dom σ2)) in *.
  set (h := mkCrane (grammar c) object (dependencies c)
              (sourceLineMappings c) (Some this)) in *.
  set (σ3 := <[cooked := OCrane Hot h]> σ2) in *.
  assert (F1 : σ !! object = None) by apply fresh_unused.
  assert (F2 : σ1 !! lines = None) by apply fresh_unused.
  assert (F3 : σ2 !! cooked = None) by apply fresh_unused.
  assert (S1 : σ ⊆ σ1) by (by apply insert_subseteq).
  assert (S2 : σ1 ⊆ σ2) by (by apply insert_subseteq).
  assert (S3 : σ2 ⊆ σ3) by (by apply insert_subseteq).
  assert (S13 : σ1 ⊆ σ3) by (etrans; [exact S2|exact S3]).
  assert (S03 : σ ⊆ σ3) by (etrans; [exact S1|exact S13]).
  assert (C3 : σ3 !! cooked = Some (OCrane Hot h)) by apply lookup_insert_eq.
  assert (G3 : σ3 !! grammar c = Some (OGrammar g))
    by (by apply (lookup_weaken σ)).
  assert (A3 : σ3 !! object
               = Some (OHotActions ((λ a, VFunction (evaluate a)) <$> t))).
  { apply (lookup_weaken σ1); [apply lookup_insert_eq|done]. }
  assert (T3 : σ3 !! this = Some (OCrane Cold c))
    by (by apply (lookup_weaken σ)).
  assert (CA3 : σ3 !! actions c = Some (OColdActions t))
    by (by apply (lookup_weaken σ)).
  pose proof (augment_run σ3 cooked h g _ nt toks action C3 G3 A3) as Haug.
  set (σ4 := <[grammar h := _]> _) in Haug.
  assert (Hframe : ∀ l, l ≠ grammar c → l ≠ object → σ4 !! l = σ3 !! l).
  { intros l L1 L2. unfold σ4. simpl. rewrite lookup_insert_ne by done.
    destruct (String.eqb _ _); [by rewrite lookup_insert_ne|done]. }
  assert (G4 : σ4 !! grammar c
               = Some (OGrammar (addProduction g nt toks emptyMeta).1))
    by apply lookup_insert_eq.
  assert (N1 : this ≠ grammar c) by (intros E; rewrite <- E in Hg; congruence).
  assert (N2 : this ≠ object) by (intros E; rewrite <- E in F1; congruence).
  assert (N3 : cooked ≠ grammar c)
    by (intros E; rewrite <- E in G3; congruence).
  assert (N4 : cooked ≠ object)
    by (intros E; rewrite <- E in A3; congruence).
  assert (N5 : actions c ≠ grammar c)
    by (intros E; rewrite E in Ht; congruence).
  assert (N6 : actions c ≠ object)
    by (intros E; rewrite E in Ht; congruence).
  exists cooked, σ3, σ4.
  split; [exact Hrun|]. split; [exact Haug|].
  split; [unfold grammarOf; rewrite T3; by rewrite (lookup_weaken _ _ _ _ Hg S03)|].
  split; [unfold grammarOf; rewrite Hframe, T3 by done; by rewrite G4|].
  split; [unfold grammarOf; rewrite Hframe, C3 by done; simpl; by rewrite G4|].
  unfold coldActionsOf. rewrite Hframe, T3 by done.
  by rewrite Hframe, CA3 by done.
Qed.

Lemma compileLS_throws (code : string) (aliases : list (nat * string))
    (e : JsError) :
  compileLS code aliases = Throw e → e = Error "Cannot parse!".
Proof.
  unfold compileLS. destruct (ls_compile _) as [c|]; [|by intros [= <-]].
  destruct (acorn_parseExpressionAt _); [discriminate|by intros [= <-]].
Qed.

Lemma compileActions_throws (entries : list Entry) (i : nat)
    (obj : gmap nat JsAst) (e : Entry) (err : JsError) :
  e ∈ entries →
  truthy (entry_code e) = true →
  compileLS (default ""%string (entry_code e)) [] = Throw err →
  compileActions i entries obj = Throw (Error "Cannot parse!").
Proof.
  revert i obj. induction entries as [|e0 rest IH]; intros i obj Hin Ht Hc.
  - by apply elem_of_nil in Hin.
  - simpl. destruct (truthy (entry_code e0)) eqn:T0.
    + unfold mbind, Result_bind.
      destruct (compileLS (default ""%string (entry_code e0)) [])
        as [ast|e1] eqn:C0.
      * apply elem_of_cons in Hin as [->|Hin]; [congruence|by apply IH].
      * by apply compileLS_throws in C0 as ->.
    + apply elem_of_cons in Hin as [->|Hin]; [congruence|by apply IH].
Qed.

(** X24.  When the loops of [toGrammar] end without an error and the code
    of one of the collected entries does not compile, [toGrammar] throws
    ["Cannot parse!"], whatever the compiler reported, and builds
    nothing: the store is as before the call. *)
Theorem toGrammar_cannot_parse (code : list Line) (rootName : option string)
    (ctxt : string → option UserMacro) (σ : gmap nat HeapObj) (st : State)
    (e : Entry) (err : JsError) :
  collect code rootName ctxt = Some (Ok st) →
  e ∈ st_list st →
  truthy (entry_code e) = true →
  compileLS (default ""%string (entry_code e)) [] = Throw err →
  toGrammar code rootName ctxt σ = (Throw (Error "Cannot parse!"), σ).
Proof.
  intros Hcol Hin Ht Hc. unfold toGrammar. rewrite Hcol.
  unfold mbind at 1, M_bind at 1, liftResult at 1.
  unfold mbind at 1, M_bind at 1, liftResult at 1.
  by rewrite (compileActions_throws _ 0 ∅ e err Hin Ht Hc).
Qed.

End Crane.

(** * Instances *)

(** C1 on a sample: a hot crane grammar with two productions is augmented
    with a production and a function; the production gets id 2 and the
    function is bound under 2. *)
Lemma augment_appends_and_binds_witness :
  ∃ σ' g' t',
    augment string string 4 "e" [SymStr "e"; SymStr "+"; SymStr "e"]
      (VFunction string "plus")
      (sampleStore string string Hot (OHotActions string string ∅))
    = (Ok tt, σ')
    ∧ grammarOf string string σ' 4 = Some g'
    ∧ hotActionsOf string string σ' 4 = Some t'
    ∧ productions g' !! 2
      = Some (mkProduction "e" [SymStr "e"; SymStr "+"; SymStr "e"]
                PrecUndefined)
    ∧ t' !! 2 = Some (VFunction string "plus").
Proof.
  destruct (augment_appends_and_binds string string
              (sampleStore string string Hot (OHotActions string string ∅))
              4 sampleGrammar ∅ "e" [SymStr "e"; SymStr "+"; SymStr "e"]
              (VFunction string "plus"))
    as (σ' & g' & t' & H1 & H2 & H3 & _ & H5 & _ & _ & _ & H9);
    [reflexivity|reflexivity|].
  exists σ', g', t'. repeat split; assumption.
Defined.

(** C3 on a sample: the builder appends a production to the grammar it is
    given; the grammar of the crane grammar is as before. *)
Lemma generateParsingTable_keeps_grammar_witness :
  grammarOf string string
    (generateParsingTable string string
       (λ g, (addProduction g "$accept" [SymStr "$$$"] emptyMeta).1)
       (λ _, []) (λ _, ∅) 4 false
       (sampleStore string string Hot (OHotActions string string ∅))).2 4
  = Some sampleGrammar.
Proof.
  apply (generateParsingTable_keeps_grammar string string
           (λ g, (addProduction g "$accept" [SymStr "$$$"] emptyMeta).1)
           (λ _, []) (λ _, ∅)
           (sampleStore string string Hot (OHotActions string string ∅))
           4 false sampleGrammar).
  reflexivity.
Defined.

(** C6 on a sample: [<] is declared non-associative, and after [e < e] the
    automaton can shift [<] or reduce by [e < e]. *)
Lemma none_associativity_conflict_is_fatal_witness :
  (generateParsingTable string string (λ g, g) (λ _, comparisonCandidates)
     (λ _, ∅) 4 false (comparisonStore string string)).1
  = Throw (GrammarConflict 5 "<").
Proof.
  apply (none_associativity_conflict_is_fatal string string (λ g, g)
           (λ _, comparisonCandidates) (λ _, ∅)
           (comparisonStore string string) 4 false comparisonGrammar
           [(5, "<"%string, Shift 3)] [] {[ (5, "<"%string) := Shift 3 ]}
           5 "<" (Shift 3) (Reduce 1) 3 1
           (mkProduction "e" [SymStr "e"; SymStr "<"; SymStr "e"] PrecNull)
           0 NONE).
  - reflexivity.
  - reflexivity.
  - vm_compute. reflexivity.
  - vm_compute. reflexivity.
  - left. split; reflexivity.
  - reflexivity.
  - vm_compute. reflexivity.
  - vm_compute. reflexivity.
Defined.

(** C7 on a sample: a cold crane grammar with one action node, under 1. *)
Lemma cook_is_side_effect_free_witness :
  ∃ cooked object σ' t',
    cook string string (λ a, a) 4
      (sampleStore string string Cold
         (OColdActions string string {[ 1 := "function"%string ]}))
    = (Ok cooked, σ')
    ∧ σ' !! cooked
      = Some (OCrane string string Hot (mkCrane 0 object 2 3 (Some 4)))
    ∧ σ' !! object = Some (OHotActions string string t')
    ∧ t' !! 1 = Some (VFunction string "function")
    ∧ t' !! 0 = None
    ∧ σ' !! 4 = Some (OCrane string string Cold (mkCrane 0 1 2 3 None)).
Proof.
  destruct (cook_is_side_effect_free string string (λ a, a)
              (sampleStore string string Cold
                 (OColdActions string string {[ 1 := "function"%string ]}))
              4 (mkCrane 0 1 2 3 None) sampleGrammar
              {[ 1 := "function"%string ]})
    as (cooked & object & σ' & t' & H1 & _ & _ & _ & H5 & H6 & H7 & H8 & _);
    [reflexivity|reflexivity|reflexivity|].
  exists cooked, object, σ', t'.
  split; [exact H1|]. split; [exact H5|]. split; [exact H6|].
  split; [rewrite H7; reflexivity|]. split; [rewrite H7; reflexivity|].
  exact H8.
Defined.

(** C2 on the sample document: no root name is given, the first
    non-terminal defined is [expression]. *)
Lemma toGrammar_root_production_witness :
  ∃ g,
    grammarOf string string
      (toGrammar string string Some Some sampleDocument None noMacros ∅).2 4
    = Some g
    ∧ root g = 0
    ∧ productions g !! 0
      = Some (mkProduction "$$$" [SymStr "expression"] PrecUndefined).
Proof.
  destruct (toGrammar_root_production string string Some Some sampleDocument
              None noMacros ∅
              (toGrammar string string Some Some sampleDocument None
                 noMacros ∅).2
              4 (Some 9%Z) "root"
              [LProduction (Some 10%Z) [EAddress ["expression"%string]]
                 None None])
    as (g & d & Hg & Hd & Hr & Hp & Hn & _).
  - vm_compute. reflexivity.
  - unfold sampleDocument. do 3 apply list_elem_of_further.
    apply list_elem_of_here.
  - exists g. split; [exact Hg|]. split; [exact Hr|].
    vm_compute in Hd. injection Hd as <-. exact Hp.
Defined.

(** C4 on the sample document. *)
Lemma toGrammar_actions_follow_list_witness :
  ∃ st g t,
    collect sampleDocument None noMacros = Some (Ok st)
    ∧ grammarOf string string
        (toGrammar string string Some Some sampleDocument None noMacros ∅).2 4
      = Some g
    ∧ coldActionsOf string string
        (toGrammar string string Some Some sampleDocument None noMacros ∅).2 4
      = Some t
    ∧ productions g = toProduction <$> st_list st
    ∧ (is_Some (t !! 4)
       ↔ ∃ e, st_list st !! 4 = Some e ∧ truthy (entry_code e) = true).
Proof.
  destruct (toGrammar_actions_follow_list string string Some Some
              sampleDocument None noMacros ∅
              (toGrammar string string Some Some sampleDocument None
                 noMacros ∅).2 4)
    as (st & g & t & H1 & H2 & H3 & H4 & H5 & _).
  - vm_compute. reflexivity.
  - exists st, g, t. repeat split; try assumption; apply H5.
Defined.

(** C5 on the sample document, and on a document with a precedence
    declaration in the scope of a non-terminal. *)
Lemma toGrammar_precedence_witness :
  (∃ g,
     grammarOf string string
       (toGrammar string string Some Some sampleDocument None noMacros ∅).2 4
     = Some g
     ∧ precedence g = [mkLevel ["+"; "-"]%string LEFT;
                       mkLevel ["unary"%string] NONE])
  ∧ ∃ e,
      toGrammar string string Some Some nestedPrecedence None noMacros ∅
      = (Throw e, ∅).
Proof.
  destruct (toGrammar_precedence string string Some Some sampleDocument None
              noMacros) as (Hcollected & _ & _).
  destruct (toGrammar_precedence string string Some Some nestedPrecedence None
              noMacros) as (_ & _ & Hrejected).
  split.
  - apply (Hcollected ∅ _ 4).
    + vm_compute. reflexivity.
    + intros loc d b Hin Hd. subst d. unfold sampleDocument in Hin.
      repeat (apply elem_of_cons in Hin as [Hin|Hin]; [discriminate Hin|]).
      by apply elem_of_nil in Hin.
  - apply Hrejected.
    apply (precedence_below "" nestedPrecedence None "a"
             [LPrecedence None KLeft ["+"%string];
              LProduction None [EString "x"] None None]).
    + apply list_elem_of_here.
    + apply (precedence_here _ _ None KLeft ["+"%string]);
        [discriminate|apply list_elem_of_here].
Defined.

(** C10 on a sample: a token on the second line of a source, and the
    newline that ends the source. *)
Lemma getLoc_is_partial_witness :
  (∃ loc,
     getLoc innerToken = Some loc
     ∧ start loc = Some (mkPosition 2 0)
     ∧ end_ loc = Some (mkPosition 2 2))
  ∧ getLoc lastToken = None.
Proof.
  destruct (getLoc_is_partial unit unit (λ _, None) (λ _, None) (λ _, [])
              unit (λ _, tt) (λ _ _, Ok tt) (λ _, Ok []) innerToken 2 4
              eq_refl) as (Hsome & _ & _).
  destruct (getLoc_is_partial unit unit (λ _, None) (λ _, None) (λ _, [])
              unit (λ _, tt) (λ _ _, Ok tt) (λ _, Ok []) lastToken 4 5
              eq_refl) as (_ & Hnone & _).
  split.
  - exists (mkLoc (Some (mkPosition 2 0)) (Some (mkPosition 2 2))).
    split; [reflexivity|].
    destruct (Hsome (mkLoc (Some (mkPosition 2 0)) (Some (mkPosition 2 2)))
                eq_refl) as (_ & _ & Hs & He & _).
    split; [exact Hs|exact He].
  - apply Hnone. right. vm_compute. lia.
Defined.

(** C8 at an input where the code does not do what the claim says.  A
    production in the scope of [a] refers to [constructor] and to
    [toString]; no scope binds these names, and [toGrammar] returns: both are
    [in vars], inherited from [Object.prototype], and the right-hand side
    holds the inherited members.  A reference to [b], which nothing has,
    throws the error that names it. *)
Example inherited_member_is_not_rejected :
  (toGrammar string string Some Some refersToConstructor None noMacros ∅).1
  = Ok 4
  ∧ (st_list <$> (collect refersToConstructor None noMacros
                    ≫= λ r, match r with Ok st => Some st | Throw _ => None end))
    = Some [ mkEntry "$$$" 0 [SymStr "a"] (Some "$[0]"%string) PrecUndefined;
             mkEntry "a" 0 [SymNative "constructor"; SymNative "toString"]
               None PrecNull ]
  ∧ collect refersToUnbound None noMacros
    = Some (Throw (notDefined "b")).
Proof. vm_compute. repeat split. Qed.

(** C9 at an input where the code does not do what the claim says.  The
    source is ["a"] and a newline; the parser throws on the newline token,
    whose range is [[1, 2]] and whose start is at line 1, column 1.  The
    end offset is the length of the source, [getLoc] returns [undefined],
    and [compile] throws the type error of reading [start] of it: the
    message of the parser's error is lost. *)
Example compile_loses_the_error_at_the_last_token :
  compile unit unit (λ _, None) (λ _, None)
    (λ s, [mkToken "newline" "" s [1; 2]])
    unit (λ _, tt) (λ _ _, Throw (Error "Unexpected token")) (λ _, Ok [])
    "a" None noMacros ∅
  = (Throw (TypeError "Cannot read properties of undefined (reading 'start')"),
     ∅)
  ∧ positionOf ("a" +:+ String newline "") 1 = mkPosition 1 1.
Proof. vm_compute. split; reflexivity. Qed.

(** Names in nested scopes.  In the scope of [a.x], [x], [y] and [b] are
    those of the scope of [a] ([y] and [b] are bound there after the table of
    [a.x] was made, and [b] of [a] hides [b] of the document), and [c] is
    that of the document. *)
Example scoped_names_resolve_innermost_first :
  (st_list <$> (collect scopedDocument None noMacros
                  ≫= λ r, match r with Ok st => Some st | Throw _ => None end))
  = Some [ mkEntry "$$$" 0 [SymStr "a"] (Some "$[0]"%string) PrecUndefined;
           mkEntry "a.x" 0
             [SymStr "a.x"; SymStr "a.y"; SymStr "a.b"; SymStr "c";
              SymStr "c.k"]
             None PrecNull ].
Proof. vm_compute. reflexivity. Qed.


(** X1 on a sample: the token on the second line of the sample source. *)
Lemma getLoc_defined_iff_witness : is_Some (getLoc innerToken).
Proof.
  apply (getLoc_defined_iff innerToken 2 4 eq_refl). simpl. lia.
Defined.

(** X3 and X4 on a sample: the parser throws on the first token of the
    source ["ab"]. *)
Lemma compile_reports_position_witness :
  compile unit unit (λ _, None) (λ _, None)
    (λ s, [mkToken "id" "a" s [0; 1]])
    unit (λ _, tt) (λ _ _, Throw (Error "Unexpected token")) (λ _, Ok [])
    "ab" None noMacros ∅
  = (Throw (Error "Unexpected token @1:0"), ∅).
Proof.
  apply (compile_reports_position unit unit (λ _, None) (λ _, None)
           (λ s, [mkToken "id" "a" s [0; 1]])
           unit (λ _, tt) (λ _ _, Throw (Error "Unexpected token"))
           (λ _, Ok []) ∅ "ab" None noMacros [] []
           (mkToken "id" "a" ("ab" +:+ String newline "") [0; 1]) tt
           (Error "Unexpected token") 0 1);
    try reflexivity; simpl; lia.
Defined.

Lemma compile_stops_at_first_push_error_witness :
  ∃ err,
    compile unit unit (λ _, None) (λ _, None)
      (λ s, [mkToken "id" "a" s [0; 1]])
      unit (λ _, tt) (λ _ _, Throw (Error "Unexpected token")) (λ _, Ok [])
      "ab" None noMacros ∅
    = (Throw err, ∅).
Proof.
  destruct (compile_stops_at_first_push_error unit unit (λ _, None)
              (λ _, None) (λ s, [mkToken "id" "a" s [0; 1]])
              unit (λ _, tt) (λ _ _, Throw (Error "Unexpected token"))
              (λ _, Ok []) ∅ "ab" None noMacros [] []
              (mkToken "id" "a" ("ab" +:+ String newline "") [0; 1]) tt
              (Error "Unexpected token"))
    as (err & H & _); [reflexivity|reflexivity|reflexivity|].
  exists err. exact H.
Defined.

(** X5 on a sample: a document that is one production. *)
Lemma toGrammar_rejects_top_level_production_witness :
  toGrammar string string Some Some
    [LProduction None [EString "x"] None None] None noMacros ∅
  = (Throw (Error "Top level productions not allowed!"), ∅).
Proof.
  apply (toGrammar_rejects_top_level_production string string Some Some
           [LProduction None [EString "x"] None None] None noMacros ∅
           None [EString "x"] None None).
  apply list_elem_of_here.
Defined.


Lemma toGrammar_top_level_imports_witness :
  ∃ c deps,
    (toGrammar string string Some Some importingDocument None noMacros ∅).2
      !! 4 = Some (OCrane string string Cold c)
    ∧ (toGrammar string string Some Some importingDocument None noMacros ∅).2
        !! dependencies c = Some (ODependencies string string deps)
    ∧ [mkDependency 1 "./lexer"; mkDependency 1 "./util"] `prefix_of` deps.
Proof.
  apply (toGrammar_top_level_imports string string Some Some
           importingDocument None noMacros ∅ _ 4).
  vm_compute. reflexivity.
Defined.

(** X8 and X10 on the sample document. *)
Lemma toGrammar_maps_every_production_witness :
  ∃ c st g,
    collect sampleDocument None noMacros = Some (Ok st)
    ∧ (toGrammar string string Some Some sampleDocument None noMacros ∅).2
        !! 4 = Some (OCrane string string Cold c)
    ∧ grammarOf string string
        (toGrammar string string Some Some sampleDocument None noMacros ∅).2 4
      = Some g
    ∧ productions g = toProduction <$> st_list st
    ∧ (toGrammar string string Some Some sampleDocument None noMacros ∅).2
        !! sourceLineMappings c
      = Some (OLines string string
                ((λ e, Some (entry_line e)) <$> st_list st)).
Proof.
  apply (toGrammar_maps_every_production string string Some Some
           sampleDocument None noMacros ∅ _ 4).
  vm_compute. reflexivity.
Defined.

Lemma toGrammar_keysWithin_witness :
  ∃ g t,
    grammarOf string string
      (toGrammar string string Some Some sampleDocument None noMacros ∅).2 4
    = Some g
    ∧ coldActionsOf string string
        (toGrammar string string Some Some sampleDocument None noMacros ∅).2 4
      = Some t
    ∧ keysWithin g t.
Proof.
  apply (toGrammar_keysWithin string string Some Some sampleDocument None
           noMacros ∅ _ 4).
  vm_compute. reflexivity.
Defined.

(** X9 on the sample document, which has three scopes. *)
Lemma whileDefs_one_turn_per_scope_witness :
  ∃ st,
    whileDefs noMacros None 5 (initialState sampleDocument) = Some (Ok st)
    ∧ scopesOf sampleDocument ≤ 5
    ∧ st_defs st = [].
Proof.
  assert (H : ∃ st, whileDefs noMacros None 5 (initialState sampleDocument)
                    = Some (Ok st))
    by (eexists; vm_compute; reflexivity).
  destruct H as [st H]. exists st. split; [exact H|].
  destruct (whileDefs_one_turn_per_scope sampleDocument None noMacros 5 st H)
    as (H1 & H2 & _).
  split; [exact H1|exact H2].
Defined.

(** X11 on a sample: a cold crane grammar with one action node, under 1. *)
Lemma cook_keysWithin_witness :
  ∃ cooked σ' t',
    cook string string (λ a, a) 4
      (sampleStore string string Cold
         (OColdActions string string {[ 1 := "function"%string ]}))
    = (Ok cooked, σ')
    ∧ grammarOf string string σ' cooked = Some sampleGrammar
    ∧ hotActionsOf string string σ' cooked = Some t'
    ∧ keysWithin sampleGrammar t'.
Proof.
  apply (cook_keysWithin string string (λ a, a)
           (sampleStore string string Cold
              (OColdActions string string {[ 1 := "function"%string ]}))
           4 (mkCrane 0 1 2 3 None) sampleGrammar
           {[ 1 := "function"%string ]});
    [reflexivity|reflexivity|reflexivity|].
  intros id [v Hv]. destruct (decide (id = 1)) as [->|Hne]; [simpl; lia|].
  rewrite lookup_singleton_ne in Hv by done. discriminate.
Defined.

(** X12 on a sample: a hot crane grammar with no bound action. *)
Lemma augment_keysWithin_witness :
  ∃ σ' g' t',
    augment string string 4 "e" [SymStr "e"; SymStr "+"; SymStr "e"]
      (VFunction string "plus")
      (sampleStore string string Hot (OHotActions string string ∅))
    = (Ok tt, σ')
    ∧ grammarOf string string σ' 4 = Some g'
    ∧ hotActionsOf string string σ' 4 = Some t'
    ∧ keysWithin g' t'.
Proof.
  apply (augment_keysWithin string string
           (sampleStore string string Hot (OHotActions string string ∅))
           4 (mkCrane 0 1 2 3 None) sampleGrammar ∅ "e"
           [SymStr "e"; SymStr "+"; SymStr "e"] (VFunction string "plus"));
    [reflexivity|reflexivity|reflexivity|].
  intros id [v Hv]. rewrite lookup_empty in Hv. discriminate.
Defined.

(** X17 on a sample: the aliases [2 → x] and [0 → y]. *)
Lemma compileLS_alias_list_witness :
  foldl setAlias [] [(2, "x"%string); (0, "y"%string)] !! 2 = Some "x"%string
  ∧ foldl setAlias [] [(2, "x"%string); (0, "y"%string)] !! 1
    = Some ""%string.
Proof.
  assert (Hnd : NoDup [(2, "x"%string); (0, "y"%string)].*1).
  { apply NoDup_cons_2; [|apply NoDup_singleton].
    intros H%list_elem_of_singleton. discriminate. }
  pose proof (compileLS_alias_list [(2, "x"%string); (0, "y"%string)] Hnd)
    as H.
  cbv zeta in H. destruct H as (H1 & _ & H3).
  split.
  - apply H1. apply list_elem_of_here.
  - apply H3; [simpl; lia|].
    intros [H|H]%elem_of_cons; [discriminate|].
    apply list_elem_of_singleton in H. discriminate.
Defined.

(** X18 on a sample: two calls of [multiple], one after the other. *)
Lemma multiple_handles_differ_witness : newId 0 ≠ newId 1.
Proof.
  eapply (multiple_handles_differ [0] [0] [[EString "x"]] [[EString "x"]]
            (initialState []) _ (mkState [] [] [] [] 1 0%Z [∅]) _
            (newId 0) (newId 1));
    [reflexivity|simpl; lia|reflexivity].
Defined.

(** X19 on a sample: [x], which nothing binds, as an element of a
    production and as the argument of [multiple]. *)
Lemma macro_argument_is_not_checked_witness :
  elementStep noMacros [0] (initialState [], []) (EAddress ["x"%string])
  = Throw (notDefined "x")
  ∧ ∃ st',
      elementStep noMacros [0] (initialState [], [])
        (ECall "multiple" [[EAddress ["x"%string]]])
      = Ok (st', [SymStr (newId 0)]).
Proof.
  destruct (macro_argument_is_not_checked noMacros [0] (initialState []) []
              "x")
    as (H1 & st' & H2 & _); [reflexivity|reflexivity|reflexivity|].
  split; [exact H1|]. exists st'. exact H2.
Defined.

(** X20 on a sample: a table with one action node, under 1. *)
Lemma getActionAST_lists_the_table_witness :
  ∃ props,
    getActionAST string string 4
      (sampleStore string string Cold
         (OColdActions string string {[ 1 := "function"%string ]}))
    = (Ok props,
       sampleStore string string Cold
         (OColdActions string string {[ 1 := "function"%string ]}))
    ∧ length props = 1.
Proof.
  destruct (getActionAST_lists_the_table string string
              (sampleStore string string Cold
                 (OColdActions string string {[ 1 := "function"%string ]}))
              4 (mkCrane 0 1 2 3 None) {[ 1 := "function"%string ]})
    as (props & H1 & H2 & _); [reflexivity|reflexivity|].
  exists props. split; [exact H1|]. rewrite H2. apply map_size_singleton.
Defined.

(** X21 on a sample: a line for production 4 in an array of two lines. *)
Lemma addSourceLineMapping_writes_one_entry_witness :
  ∃ a',
    addSourceLineMapping string string 4 4 7
      (sampleStore string string Hot (OHotActions string string ∅))
    = (Ok tt,
       <[3 := OLines string string a']>
         (sampleStore string string Hot (OHotActions string string ∅)))
    ∧ a' !! 4 = Some (Some 7%Z)
    ∧ length a' = 5
    ∧ a' !! 2 = Some None.
Proof.
  destruct (addSourceLineMapping_writes_one_entry string string
              (sampleStore string string Hot (OHotActions string string ∅))
              4 Hot (mkCrane 0 1 2 3 None) [Some 0%Z; Some 1%Z] 4 7%Z)
    as (a' & H1 & H2 & H3 & _ & H5); [reflexivity|reflexivity|].
  exists a'. split; [exact H1|]. split; [exact H2|]. split; [exact H3|].
  apply H5. simpl. lia.
Defined.

(** X22 on a sample: the hot crane grammar of the sample store. *)
Lemma augment_writes_grammar_and_table_only_witness :
  ∃ σ',
    augment string string 4 "e" [SymStr "e"; SymStr "+"; SymStr "e"]
      (VFunction string "plus")
      (sampleStore string string Hot (OHotActions string string ∅))
    = (Ok tt, σ')
    ∧ σ' !! 3 = Some (OLines string string [Some 0%Z; Some 1%Z])
    ∧ ([Some 0%Z; Some 1%Z] : list (option Z)) !! 2 = None.
Proof.
  destruct (augment_writes_grammar_and_table_only string string
              (sampleStore string string Hot (OHotActions string string ∅))
              4 (mkCrane 0 1 2 3 None) sampleGrammar ∅
              [Some 0%Z; Some 1%Z] "e" [SymStr "e"; SymStr "+"; SymStr "e"]
              (VFunction string "plus"))
    as (σ' & g' & H1 & _ & _ & H4 & _);
    [reflexivity|reflexivity|reflexivity|reflexivity|reflexivity|].
  exists σ'. split; [exact H1|]. split; [exact H4|reflexivity].
Defined.

(** X23 on a sample: a cold crane grammar is cooked and the cooked one
    augmented. *)
Lemma augment_after_cook_reaches_the_origin_witness :
  ∃ cooked σ1 σ2,
    cook string string (λ a, a) 4
      (sampleStore string string Cold
         (OColdActions string string {[ 1 := "function"%string ]}))
    = (Ok cooked, σ1)
    ∧ augment string string cooked "e" [SymStr "e"; SymStr "+"; SymStr "e"]
        (VFunction string "plus") σ1
      = (Ok tt, σ2)
    ∧ grammarOf string string σ2 4
      = Some (addProduction sampleGrammar "e"
                [SymStr "e"; SymStr "+"; SymStr "e"] emptyMeta).1.
Proof.
  destruct (augment_after_cook_reaches_the_origin string string (λ a, a)
              (sampleStore string string Cold
                 (OColdActions string string {[ 1 := "function"%string ]}))
              4 (mkCrane 0 1 2 3 None) sampleGrammar
              {[ 1 := "function"%string ]} "e"
              [SymStr "e"; SymStr "+"; SymStr "e"] (VFunction string "plus"))
    as (cooked & σ1 & σ2 & H1 & H2 & _ & H4 & _);
    [reflexivity|reflexivity|reflexivity|].
  exists cooked, σ1, σ2. split; [exact H1|]. split; [exact H2|exact H4].
Defined.

(** X24 on the sample document, with a compiler that accepts nothing. *)
Lemma toGrammar_cannot_parse_witness :
  toGrammar string string (λ _, None) Some sampleDocument None noMacros ∅
  = (Throw (Error "Cannot parse!"), ∅).
Proof.
  assert (H : ∃ st, collect sampleDocument None noMacros = Some (Ok st))
    by (eexists; vm_compute; reflexivity).
  destruct H as [st H].
  destruct (collect_root sampleDocument None noMacros st "expression" H
              eq_refl) as [ℓ Hroot].
  apply (toGrammar_cannot_parse string string (λ _, None) Some sampleDocument
           None noMacros ∅ st (rootEntry ℓ None "expression")
           (Error "Cannot parse!") H).
  - by apply (list_elem_of_lookup_2 _ 0).
  - reflexivity.
  - reflexivity.
Defined.

(** X13 on a sample: the properties [type], [production] and [prec] of an
    entry of the list; [line] is not copied. *)
Lemma extractor_lookup_witness :
  extractor ["type"; "production"; "prec"]%string
    (entryObject (mkEntry "e" 5 [SymStr "number"] None PrecNull))
    !! "line"%string = None
  ∧ extractor ["type"; "production"; "prec"]%string
      (entryObject (mkEntry "e" 5 [SymStr "number"] None PrecNull))
      !! "prec"%string = Some FNull.
Proof.
  assert (H : ∀ p, p ∈ ["type"; "production"; "prec"]%string →
                   p ∉ objectPrototypeMembers).
  { intros p Hp Hm.
    repeat (apply elem_of_cons in Hp as [->|Hp];
            [by apply (bool_decide_pack _) in Hm|]).
    by apply elem_of_nil in Hp. }
  split.
  - rewrite (extractor_lookup _ _ "line" H). reflexivity.
  - rewrite (extractor_lookup _ _ "prec" H). reflexivity.
Defined.
